(** * Shader Model Viewer: geometry pipeline and painter's rasterizer

    A shallow embedding of [3DShader.cpp] / [3DShaderViewer.hpp]:
    the mesh loader ([loadVertices], [loadFaces]), the transform pipeline
    ([rotateX], [rotateY], [applyTransform]), the projection ([project])
    and the depth-sorted flat shader ([drawShadedModel]).

    The program computes in C++ [float].  The embedding is written
    over an interface [FloatArith] of the arithmetic the source uses,
    and is read at [binary32_arith]: IEEE 754 binary32 with
    round-to-nearest-even, built on the standard library's [SpecFloat]
    (the semantics the program runs with, every operation evaluated in
    single precision and rounded on its own).

    The library routines the source calls but does not define ([cosf],
    [sinf], [std::sort], the [istringstream] extractions) are parameters
    of the embedding. *)

From Stdlib Require Import ZArith List Bool Lia Ascii String.
From Stdlib Require Import Floats.SpecFloat.
From Stdlib Require Import Sorting.Permutation Sorting.Sorted.
From stdpp Require Import base list.

Local Open Scope Z_scope.

(** ** The arithmetic of [float] *)

Class FloatArith (F : Type) := {
  fadd : F -> F -> F;
  fsub : F -> F -> F;
  fmul : F -> F -> F;
  fdiv : F -> F -> F;
  fopp : F -> F;
  fabs : F -> F;
  fsqrt : F -> F;
  (** [flt a b] is [a < b]; [fle a b] is [a <= b]. *)
  flt : F -> F -> bool;
  fle : F -> F -> bool;
  (** conversion of an integer ([int], [size_t]) to [float] *)
  of_int : Z -> F;
  (** [static_cast<int>] / [static_cast<LONG>]: truncation toward zero;
      [None] when the value has no 32-bit image (undefined behaviour) *)
  to_int : F -> option Z;
  (** the decimal literal [m * 10^e] written with an [f] suffix *)
  fdec : Z -> Z -> F;
  cosf : F -> F;
  sinf : F -> F
}.

(** *** IEEE 754 binary32 *)

Module B32.

Definition prec : Z := 24.
Definition emax : Z := 128.

Definition add := SFadd prec emax.
Definition sub := SFsub prec emax.
Definition mul := SFmul prec emax.
Definition div := SFdiv prec emax.
Definition sqrt := SFsqrt prec emax.

Definition of_Z (n : Z) : spec_float := binary_normalize prec emax n 0 false.

(** Truncation toward zero of a finite value; the shift by a negative
    exponent drops the fractional bits of the magnitude. *)
Definition to_Z (f : spec_float) : option Z :=
  match f with
  | S754_zero _ => Some 0
  | S754_finite s m e =>
      let a := Z.shiftl (Zpos m) e in
      let v := if s then - a else a in
      if (- 2 ^ 31 <=? v) && (v <? 2 ^ 31) then Some v else None
  | _ => None
  end.

(** The binary32 value nearest to [m * 10^e]: one correctly rounded
    division of two integers. *)
Definition of_dec (m e : Z) : spec_float :=
  match e with
  | Zneg p =>
      match m with
      | Z0 => S754_zero false
      | Zpos q => div (S754_finite false q 0) (S754_finite false (10 ^ p)%positive 0)
      | Zneg q => div (S754_finite true q 0) (S754_finite false (10 ^ p)%positive 0)
      end
  | _ => of_Z (m * 10 ^ e)
  end.

(** The place of a value in the order of the non-NaN values: sign class,
    then exponent, then mantissa, the last two reversed below zero. *)
Definition key (f : spec_float) : Z * Z * Z :=
  match f with
  | S754_infinity true => (-2, 0, 0)
  | S754_finite true m e => (-1, - e, Zneg m)
  | S754_zero _ | S754_nan => (0, 0, 0)
  | S754_finite false m e => (1, e, Zpos m)
  | S754_infinity false => (2, 0, 0)
  end.

Definition is_nan (f : spec_float) : bool :=
  match f with S754_nan => true | _ => false end.

Definition is_finite (f : spec_float) : bool :=
  match f with S754_zero _ | S754_finite _ _ _ => true | _ => false end.

End B32.

(** The math library supplies [cosf] and [sinf]. *)
Record libm := { libm_cosf : spec_float -> spec_float;
                 libm_sinf : spec_float -> spec_float }.

Definition binary32_arith (m : libm) : FloatArith spec_float :=
  {| fadd := B32.add; fsub := B32.sub; fmul := B32.mul; fdiv := B32.div;
     fopp := SFopp; fabs := SFabs; fsqrt := B32.sqrt;
     flt := SFltb; fle := SFleb;
     of_int := B32.of_Z; to_int := B32.to_Z; fdec := B32.of_dec;
     cosf := libm_cosf m; sinf := libm_sinf m |}.

(** ** Data model ([3DShaderViewer.hpp]) *)

Record Vertex (F : Type) := mkVertex { id : Z; x : F; y : F; z : F }.
Arguments mkVertex {F} _ _ _ _.
Arguments id {F} _.
Arguments x {F} _.
Arguments y {F} _.
Arguments z {F} _.

(** A triangular face: three 1-based vertex indices. *)
Record Face := mkFace { v1 : Z; v2 : Z; v3 : Z }.

(** The globals of the program that the geometry pipeline reads and
    writes. *)
Record Globals (F : Type) := mkGlobals {
  vertices : list (Vertex F);
  faces : list Face;
  transformed : list (Vertex F);
  angleX : F;
  angleY : F
}.
Arguments mkGlobals {F} _ _ _ _ _.
Arguments vertices {F} _.
Arguments faces {F} _.
Arguments transformed {F} _.
Arguments angleX {F} _.
Arguments angleY {F} _.

(** Win32 [POINT] and [COLORREF]. *)
Record POINT := mkPOINT { pt_x : Z; pt_y : Z }.

Definition COLORREF := Z.

Definition BYTE (n : Z) : Z := Z.land n 255.

Definition RGB (r g b : Z) : COLORREF :=
  Z.lor (Z.lor (BYTE r) (Z.shiftl (BYTE g) 8)) (Z.shiftl (BYTE b) 16).

Definition GetRValue (c : COLORREF) : Z := BYTE c.
Definition GetGValue (c : COLORREF) : Z := BYTE (Z.shiftr c 8).
Definition GetBValue (c : COLORREF) : Z := BYTE (Z.shiftr c 16).

Definition WIDTH : Z := 800.
Definition HEIGHT : Z := 600.

(** ** Transform pipeline *)

Section Transform.

Context {F : Type} {FA : FloatArith F}.

(** [angle * 3.14159265f / 180.0f] *)
Definition radians (angle : F) : F :=
  fdiv (fmul angle (fdec 314159265 (-8))) (fdec 180 0).

Definition rotateX (v : Vertex F) (angle : F) : Vertex F :=
  let rad := radians angle in
  let c := cosf rad in
  let s := sinf rad in
  mkVertex (id v)
           (x v)
           (fsub (fmul (y v) c) (fmul (z v) s))
           (fadd (fmul (y v) s) (fmul (z v) c)).

Definition rotateY (v : Vertex F) (angle : F) : Vertex F :=
  let rad := radians angle in
  let c := cosf rad in
  let s := sinf rad in
  mkVertex (id v)
           (fadd (fmul (x v) c) (fmul (z v) s))
           (y v)
           (fadd (fmul (fopp (x v)) s) (fmul (z v) c)).

(** First loop of [applyTransform]: the three running sums. *)
Definition sum_step (acc : F * F * F) (v : Vertex F) : F * F * F :=
  let '(cx, cy, cz) := acc in
  (fadd cx (x v), fadd cy (y v), fadd cz (z v)).

(** Second loop: the running maximum of the distance to the centre. *)
Definition extent_step (cx cy cz : F) (maxExtent : F) (v : Vertex F) : F :=
  let dx := fsub (x v) cx in
  let dy := fsub (y v) cy in
  let dz := fsub (z v) cz in
  let dist := fsqrt (fadd (fadd (fmul dx dx) (fmul dy dy)) (fmul dz dz)) in
  if flt maxExtent dist then dist else maxExtent.

(** Third loop: one [push_back] per vertex. *)
Definition push_step (cx cy cz maxExtent aX aY : F)
           (out : list (Vertex F)) (v : Vertex F) : list (Vertex F) :=
  let normed := mkVertex (id v)
                         (fdiv (fsub (x v) cx) maxExtent)
                         (fdiv (fsub (y v) cy) maxExtent)
                         (fdiv (fsub (z v) cz) maxExtent) in
  let t := rotateX normed aX in
  let t := rotateY t aY in
  out ++ [t].

Definition applyTransform (g : Globals F) : Globals F :=
  let vs := vertices g in
  let '(cx, cy, cz) := fold_left sum_step vs (of_int 0, of_int 0, of_int 0) in
  let n := of_int (Z.of_nat (length vs)) in
  let cx := fdiv cx n in
  let cy := fdiv cy n in
  let cz := fdiv cz n in
  let maxExtent := fold_left (extent_step cx cy cz) vs (of_int 0) in
  let out := fold_left (push_step cx cy cz maxExtent (angleX g) (angleY g)) vs [] in
  mkGlobals (vertices g) (faces g) out (angleX g) (angleY g).

(** [project]: orthographic projection to the 800x600 viewport. *)
Definition project (v : Vertex F) : option POINT :=
  let scale := fmul (of_int (Z.min WIDTH HEIGHT)) (fdec 4 (-1)) in
  match to_int (fadd (of_int (Z.quot WIDTH 2)) (fmul (x v) scale)),
        to_int (fsub (of_int (Z.quot HEIGHT 2)) (fmul (y v) scale)) with
  | Some px, Some py => Some (mkPOINT px py)
  | _, _ => None
  end.

End Transform.

(** ** Undefined behaviour

    An access outside a [std::vector] and a float-to-integer conversion
    of a value that has no image are undefined in C++; the embedding
    stops there and reports which of the two happened. *)

Inductive fault := OutOfBounds | BadCast.

Inductive result (A : Type) :=
| Ok (a : A)
| Undefined (f : fault).
Arguments Ok {A} _.
Arguments Undefined {A} _.

Definition bind {A B : Type} (m : result A) (k : A -> result B) : result B :=
  match m with
  | Ok a => k a
  | Undefined f => Undefined f
  end.

Notation "v <- m ;; k" := (bind m (fun v => k))
  (at level 100, m at next level, right associativity).

Definition cast {A : Type} (o : option A) : result A :=
  match o with
  | Some a => Ok a
  | None => Undefined BadCast
  end.

(** [vec[i]] for an [int] index converted to [size_t]. *)
Definition at_index {A : Type} (vec : list A) (i : Z) : result A :=
  if 0 <=? i then
    match vec !! Z.to_nat i with
    | Some a => Ok a
    | None => Undefined OutOfBounds
    end
  else Undefined OutOfBounds.

(** [vec[i] = a] *)
Definition set_index {A : Type} (vec : list A) (i : Z) (a : A) : result (list A) :=
  if (0 <=? i) && (i <? Z.of_nat (length vec)) then Ok (<[Z.to_nat i := a]> vec)
  else Undefined OutOfBounds.

(** A [for] loop over a container with a body that may be undefined. *)
Fixpoint foldM {A S : Type} (body : S -> A -> result S) (l : list A) (s : S)
  : result S :=
  match l with
  | [] => Ok s
  | a :: l' => s' <- body s a ;; foldM body l' s'
  end.

(** ** Depth-sorted rasterizer *)

(** The GDI calls issued on the off-screen device context, each with the
    brush or pen selected when it is made. *)
Inductive DrawCmd :=
| Polygon (p1 p2 p3 : POINT) (brush : COLORREF)
| MoveToEx (p : POINT)
| LineTo (p : POINT) (pen : COLORREF)
| Ellipse (left top right bottom : Z) (brush : COLORREF).

Record IndexedFace (F : Type) := mkIndexedFace { face : Face; avgZ : F }.
Arguments mkIndexedFace {F} _ _.
Arguments face {F} _.
Arguments avgZ {F} _.

Section Rasterizer.

Context {F : Type} {FA : FloatArith F}.

(** [std::sort(first, last, comp)] *)
Variable std_sort : forall A : Type, (A -> A -> bool) -> list A -> list A.

(** Body of the loop that fills [sortedFaces]. *)
Definition push_indexed (tr : list (Vertex F)) (sortedFaces : list (IndexedFace F))
           (f : Face) : result (list (IndexedFace F)) :=
  a <- at_index tr (v1 f - 1) ;;
  b <- at_index tr (v2 f - 1) ;;
  c <- at_index tr (v3 f - 1) ;;
  let zAvg := fdiv (fadd (fadd (z a) (z b)) (z c)) (fdec 3 0) in
  Ok (sortedFaces ++ [mkIndexedFace f zAvg]).

(** The comparison handed to [std::sort]. *)
Definition by_avgZ (a b : IndexedFace F) : bool := flt (avgZ a) (avgZ b).

(** The face normal [(v2 - v1) x (v3 - v1)], not yet normalised. *)
Definition cross (a b c : Vertex F) : F * F * F :=
  let ux := fsub (x b) (x a) in
  let uy := fsub (y b) (y a) in
  let uz := fsub (z b) (z a) in
  let vx := fsub (x c) (x a) in
  let vy := fsub (y c) (y a) in
  let vz := fsub (z c) (z a) in
  (fsub (fmul uy vz) (fmul uz vy),
   fsub (fmul uz vx) (fmul ux vz),
   fsub (fmul ux vy) (fmul uy vx)).

Definition norm3 (n : F * F * F) : F :=
  let '(nx, ny, nz) := n in
  fsqrt (fadd (fadd (fmul nx nx) (fmul ny ny)) (fmul nz nz)).

Definition black : COLORREF := RGB 0 0 0.

(** Body of the loop over [sortedFaces]; the state is the command
    stream so far and [vertexVisible]. *)
Definition shade_face (tr : list (Vertex F)) (st : list DrawCmd * list bool)
           (entry : IndexedFace F) : result (list DrawCmd * list bool) :=
  let f := face entry in
  a <- at_index tr (v1 f - 1) ;;
  b <- at_index tr (v2 f - 1) ;;
  c <- at_index tr (v3 f - 1) ;;
  let '(nx, ny, nz) := cross a b c in
  let length := norm3 (nx, ny, nz) in
  if flt length (fdec 1 (-6)) then Ok st
  else
    let nz := fdiv nz length in
    let intensity := fabs nz in
    blue <- cast (to_int (fadd (of_int 95) (fmul intensity (of_int (255 - 95))))) ;;
    let color := RGB 0 0 blue in
    p1 <- cast (project a) ;;
    p2 <- cast (project b) ;;
    p3 <- cast (project c) ;;
    let cmds := fst st ++ [Polygon p1 p2 p3 color;
                           MoveToEx p1; LineTo p2 black; LineTo p3 black; LineTo p1 black] in
    if flt (of_int 0) nz then
      vis <- set_index (snd st) (v1 f - 1) true ;;
      vis <- set_index vis (v2 f - 1) true ;;
      vis <- set_index vis (v3 f - 1) true ;;
      Ok (cmds, vis)
    else Ok (cmds, snd st).

(** Body of the loop that draws the dots. *)
Definition draw_dot (tr : list (Vertex F)) (vertexVisible : list bool)
           (cmds : list DrawCmd) (i : nat) : result (list DrawCmd) :=
  vis <- at_index vertexVisible (Z.of_nat i) ;;
  if negb vis then Ok cmds
  else
    v <- at_index tr (Z.of_nat i) ;;
    if fle (z v) (of_int 0) then Ok cmds
    else
      p <- cast (project v) ;;
      Ok (cmds ++ [Ellipse (pt_x p - 3) (pt_y p - 3) (pt_x p + 3) (pt_y p + 3)
                           (RGB 0 0 255)]).

Definition drawShadedModel (g : Globals F) : result (list DrawCmd) :=
  let tr := transformed g in
  let vertexVisible := replicate (length tr) false in
  sortedFaces <- foldM (push_indexed tr) (faces g) [] ;;
  let sortedFaces := std_sort _ by_avgZ sortedFaces in
  st <- foldM (shade_face tr) sortedFaces ([], vertexVisible) ;;
  foldM (draw_dot tr (snd st)) (seq 0 (length tr)) (fst st).

End Rasterizer.

(** ** Mesh loader *)

(** An input file stream: the characters not yet read and the two state
    bits the loader can observe. *)
Record ifstream := mkStream { buffer : string; eofbit : bool; failbit : bool }.

Definition good (file : ifstream) : bool := negb (eofbit file) && negb (failbit file).

Definition empty (s : string) : bool :=
  match s with EmptyString => true | _ => false end.

Definition newline : ascii := "010"%char.

(** The characters before the first newline and, when there is one, the
    characters after it. *)
Fixpoint until_newline (s : string) : string * option string :=
  match s with
  | EmptyString => (EmptyString, None)
  | String c s' =>
      if Ascii.eqb c newline then (EmptyString, Some s')
      else let '(l, r) := until_newline s' in (String c l, r)
  end.

(** [std::getline(file, line)].  A stream that is not [good] only gets
    [failbit] and leaves [line] as it was; otherwise [line] is erased and
    filled up to the newline (which is dropped) or the end of the input
    (which sets [eofbit], and [failbit] too when nothing was read). *)
Definition getline (file : ifstream) (line : string) : ifstream * string :=
  if good file then
    match until_newline (buffer file) with
    | (l, Some s') => (mkStream s' false false, l)
    | (l, None) => (mkStream EmptyString true (empty l), l)
    end
  else (mkStream (buffer file) (eofbit file) true, line).

(** [std::replace(line.begin(), line.end(), ',', ' ')] *)
Fixpoint replace_commas (s : string) : string :=
  match s with
  | EmptyString => EmptyString
  | String c s' => String (if Ascii.eqb c ","%char then " "%char else c) (replace_commas s')
  end.

Section Loader.

(** [extract line] stands for [std::istringstream iss(line); R r;
    iss >> r.f1 >> r.f2 ...] on a record type [R]. *)
Context {R : Type}.
Variable extract : string -> R.

(** The loop shared, word for word, by [loadVertices] and [loadFaces].
    [line] lives across iterations; [fuel] bounds the number of
    iterations and [None] means the bound was reached. *)
Fixpoint load_loop (fuel : nat) (file : ifstream) (line : string) (i count : Z)
         (records : list R) : option (ifstream * list R) :=
  match fuel with
  | O => None
  | S fuel' =>
      if i <? count then
        let '(file', line') := getline file line in
        if empty line' then load_loop fuel' file' line' (i - 1 + 1) count records
        else
          let line'' := replace_commas line' in
          load_loop fuel' file' line'' (i + 1) count (records ++ [extract line''])
      else Some (file, records)
  end.

Definition load_records (fuel : nat) (file : ifstream) (count : Z)
  : option (ifstream * list R) :=
  load_loop fuel file EmptyString 0 count [].

End Loader.

Definition loadVertices {F : Type} (extract_vertex : string -> Vertex F) :=
  load_records extract_vertex.

Definition loadFaces (extract_face : string -> Face) :=
  load_records extract_face.

(** The text of a sequence of lines, each closed by a newline. *)
Fixpoint text (ls : list string) : string :=
  match ls with
  | [] => EmptyString
  | l :: ls' => String.append l (String newline (text ls'))
  end.

Fixpoint has_newline (s : string) : bool :=
  match s with
  | EmptyString => false
  | String c s' => Ascii.eqb c newline || has_newline s'
  end.

Definition nonblank (l : string) : bool := negb (empty l).

(** *** Decimal extraction

    The formatted extractions, for running the loaders on examples.
    They cover records of plain decimal numbers: an optional sign,
    digits and, for a [float], a fraction, each integer within the
    range of [int].  Outside that domain they are not the library's
    [operator>>]: an exponent ([1e2]) is not read, an [int] too large
    is not clamped, and a field that cannot be read is stored as 0 with
    the fields after it, where the library leaves those unwritten.  The
    loaders themselves take the extraction as a parameter and no
    statement below depends on a line outside the domain. *)
Module Extract.

Definition is_space (c : ascii) : bool :=
  let n := nat_of_ascii c in
  (Nat.eqb n 32 || (Nat.leb 9 n && Nat.leb n 13))%bool.

Definition digit (c : ascii) : option Z :=
  let n := nat_of_ascii c in
  if (Nat.leb 48 n && Nat.leb n 57)%bool then Some (Z.of_nat n - 48) else None.

Fixpoint skip_ws (s : string) : string :=
  match s with
  | String c s' => if is_space c then skip_ws s' else s
  | EmptyString => s
  end.

(** value of the digits read, how many, and the rest *)
Fixpoint digits (s : string) (acc : Z) (n : Z) : Z * Z * string :=
  match s with
  | String c s' =>
      match digit c with
      | Some d => digits s' (10 * acc + d) (n + 1)
      | None => (acc, n, s)
      end
  | EmptyString => (acc, n, s)
  end.

Definition sign (s : string) : bool * string :=
  match s with
  | String "-" s' => (true, s')
  | String "+" s' => (false, s')
  | _ => (false, s)
  end.

Definition int (s : string) : option Z * string :=
  let '(neg, s1) := sign (skip_ws s) in
  let '(m, n, s2) := digits s1 0 0 in
  if n =? 0 then (None, s) else (Some (if neg then - m else m), s2).

Section Float.
Context {F : Type} {FA : FloatArith F}.

Definition float (s : string) : option F * string :=
  let '(neg, s1) := sign (skip_ws s) in
  let '(m, n, s2) := digits s1 0 0 in
  let '(m, k, s3) :=
    match s2 with
    | String "." s' => digits s' m 0
    | _ => (m, 0, s2)
    end in
  if (n =? 0) && (k =? 0) then (None, s)
  else
    let v := fdec m (- k) in
    (Some (if neg then fopp v else v), s3).

Definition vertex (line : string) : Vertex F :=
  match int line with
  | (Some i, s1) =>
      match float s1 with
      | (Some a, s2) =>
          match float s2 with
          | (Some b, s3) =>
              match float s3 with
              | (Some c, _) => mkVertex i a b c
              | _ => mkVertex i a b (of_int 0)
              end
          | _ => mkVertex i a (of_int 0) (of_int 0)
          end
      | _ => mkVertex i (of_int 0) (of_int 0) (of_int 0)
      end
  | _ => mkVertex 0 (of_int 0) (of_int 0) (of_int 0)
  end.
End Float.

Definition face (line : string) : Face :=
  match int line with
  | (Some a, s1) =>
      match int s1 with
      | (Some b, s2) =>
          match int s2 with
          | (Some c, _) => mkFace a b c
          | _ => mkFace a b 0
          end
      | _ => mkFace a 0 0
      end
  | _ => mkFace 0 0 0
  end.

Definition header (line : string) : Z * Z :=
  match int line with
  | (Some a, s1) =>
      match int s1 with
      | (Some b, _) => (a, b)
      | _ => (a, 0)
      end
  | _ => (0, 0)
  end.

End Extract.

(** ** Window procedure and entry point *)

(** The globals that only [WndProc] touches, beside the geometry. *)
Record Viewer (F : Type) := mkViewer {
  globals : Globals F;
  dragging : bool;
  lastMouse : POINT
}.
Arguments mkViewer {F} _ _ _.
Arguments globals {F} _.
Arguments dragging {F} _.
Arguments lastMouse {F} _.

(** Message numbers and word extraction of [windows.h]. *)
Definition WM_DESTROY : Z := 0x0002.
Definition WM_PAINT : Z := 0x000F.
Definition WM_MOUSEMOVE : Z := 0x0200.
Definition WM_LBUTTONDOWN : Z := 0x0201.
Definition WM_LBUTTONUP : Z := 0x0202.

Definition LOWORD (l : Z) : Z := Z.land l 0xFFFF.
Definition HIWORD (l : Z) : Z := Z.land (Z.shiftr l 16) 0xFFFF.

(** What the program asks of the system, beside drawing. *)
Inductive Effect :=
| InvalidateRect
| Painted (cmds : list DrawCmd)
| PostQuitMessage (code : Z)
| DefWindowProc (msg wParam lParam : Z)
| MessageBoxA (text caption : string)
| ShowWindow
| UpdateWindow.

(** The value [WndProc] returns: 0, or whatever [DefWindowProc] gave. *)
Inductive LRESULT := Zero | OfDefWindowProc.

Record MSG := mkMSG { message : Z; wParam : Z; lParam : Z }.

Section Window.

Context {F : Type} {FA : FloatArith F}.
Variable std_sort : forall A : Type, (A -> A -> bool) -> list A -> list A.

Definition WndProc (w : Viewer F) (m : MSG)
  : result (Viewer F * list Effect * LRESULT) :=
  if message m =? WM_LBUTTONDOWN then
    Ok (mkViewer (globals w) true (mkPOINT (LOWORD (lParam m)) (HIWORD (lParam m))), [], Zero)
  else if message m =? WM_LBUTTONUP then
    Ok (mkViewer (globals w) false (lastMouse w), [], Zero)
  else if message m =? WM_MOUSEMOVE then
    if dragging w then
      let mx := LOWORD (lParam m) in
      let my := HIWORD (lParam m) in
      let dx := mx - pt_x (lastMouse w) in
      let dy := my - pt_y (lastMouse w) in
      let g := globals w in
      let aY := fadd (angleY g) (fmul (of_int dx) (fdec 5 (-1))) in
      let aX := fadd (angleX g) (fmul (of_int dy) (fdec 5 (-1))) in
      let g' := applyTransform (mkGlobals (vertices g) (faces g) (transformed g) aX aY) in
      Ok (mkViewer g' (dragging w) (mkPOINT mx my), [InvalidateRect], Zero)
    else Ok (w, [], Zero)
  else if message m =? WM_PAINT then
    cmds <- drawShadedModel std_sort (globals w) ;;
    Ok (w, [Painted cmds], Zero)
  else if message m =? WM_DESTROY then
    Ok (w, [PostQuitMessage 0], Zero)
  else Ok (w, [DefWindowProc (message m) (wParam m) (lParam m)], OfDefWindowProc).

(** The message loop: every message that [GetMessage] hands out before
    [WM_QUIT] is dispatched to [WndProc]. *)
Fixpoint pump (w : Viewer F) (queue : list MSG) : result (Viewer F * list Effect) :=
  match queue with
  | [] => Ok (w, [])
  | m :: queue' =>
      r <- WndProc w m ;;
      r' <- pump (fst (fst r)) queue' ;;
      Ok (fst r', snd (fst r) ++ snd r')
  end.

(** [extract_header line] stands for [std::istringstream hs(line);
    int vertexCount, faceCount; hs >> vertexCount >> faceCount]. *)
Variable extract_header : string -> Z * Z.
Variable extract_vertex : string -> Vertex F.
Variable extract_face : string -> Face.

(** What a run of the program comes to. *)
Record Finished := mkFinished {
  exit_code : Z;
  effects : list Effect;
  final : option (Viewer F)
}.

(** [WinMain].  [object_txt] is the text of the file when it can be
    opened, [window] tells whether [CreateWindowEx] gave a window and
    [queue] holds the messages delivered before [WM_QUIT].  [None]
    means that a loader did not return within [fuel] iterations. *)
Definition WinMain (fuel : nat) (object_txt : option string) (window : bool)
           (queue : list MSG) : option (result Finished) :=
  match object_txt with
  | None => Some (Ok (mkFinished 1 [MessageBoxA "Could not open object.txt" "Error"] None))
  | Some content =>
      let file := mkStream content false false in
      let '(file, header) := getline file EmptyString in
      let header := replace_commas header in
      let '(vertexCount, faceCount) := extract_header header in
      match loadVertices extract_vertex fuel file vertexCount with
      | None => None
      | Some (file, vs) =>
          match loadFaces extract_face fuel file faceCount with
          | None => None
          | Some (file, fs) =>
              let g := applyTransform (mkGlobals vs fs [] (fdec 0 0) (fdec 0 0)) in
              let w := mkViewer g false (mkPOINT 0 0) in
              if window then
                Some (r <- pump w queue ;;
                      Ok (mkFinished 0 ([ShowWindow; UpdateWindow] ++ snd r) (Some (fst r))))
              else Some (Ok (mkFinished 0 [] (Some w)))
          end
      end
  end.

End Window.

(** The transformed set is the transform of the current mesh and
    angles. *)
Definition in_sync {F : Type} {FA : FloatArith F} (g : Globals F) : Prop :=
  transformed g = transformed (applyTransform g).

(** ** What [std::sort] promises

    [std::sort] requires the comparison to be a strict weak ordering of
    the elements it is given and then returns them rearranged so that no
    element is less than one before it.  It does not promise to keep the
    order of elements that compare equivalent. *)

Definition incomparable {A : Type} (lt : A -> A -> bool) (a b : A) : bool :=
  negb (lt a b) && negb (lt b a).

Definition strict_weak_onb {A : Type} (lt : A -> A -> bool) (l : list A) : bool :=
  forallb (fun a => negb (lt a a)) l &&
  forallb (fun a => forallb (fun b => forallb (fun c =>
    implb (lt a b && lt b c) (lt a c) &&
    implb (incomparable lt a b && incomparable lt b c) (incomparable lt a c)) l) l) l.

Definition sort_contract
           (sort : forall A : Type, (A -> A -> bool) -> list A -> list A) : Prop :=
  forall (A : Type) (lt : A -> A -> bool) (l : list A),
    strict_weak_onb lt l = true ->
    Permutation l (sort A lt l) /\
    StronglySorted (fun a b => lt b a = false) (sort A lt l).

(** One implementation that meets the contract: straight insertion,
    each element placed in front of the first one it is less than. *)
Fixpoint insert_sorted {A : Type} (lt : A -> A -> bool) (a : A) (l : list A) : list A :=
  match l with
  | [] => [a]
  | b :: l' => if lt a b then a :: b :: l' else b :: insert_sorted lt a l'
  end.

Fixpoint insertion_sort (A : Type) (lt : A -> A -> bool) (l : list A) : list A :=
  match l with
  | [] => []
  | a :: l' => insert_sorted lt a (insertion_sort A lt l')
  end.

(** ** [std::sort] in GCC's standard library

    The source calls [std::sort] and the C++ standard fixes only its
    contract.  What a build with GCC runs is the introsort of libstdc++
    ([bits/stl_algo.h], [bits/stl_heap.h]): median-of-three quicksort
    down to ranges of 16 elements, heapsort when the recursion gets
    deeper than [2 * log2 n], and a final insertion sort.  It is written
    here routine by routine on a vector held as a list, iterators being
    positions.  A read outside the vector does not occur when [comp] is
    a strict weak ordering; where the C++ behaviour would be undefined
    the routine at hand stops and leaves the vector as it is. *)

Module Gnu.

Local Open Scope nat_scope.

Section Introsort.

Context {A : Type}.
Variable comp : A -> A -> bool.

(** [__comp(i, j)] on two iterators. *)
Definition less (v : list A) (i j : nat) : bool :=
  match v !! i, v !! j with
  | Some a, Some b => comp a b
  | _, _ => false
  end.

Definition iter_swap (v : list A) (i j : nat) : list A :=
  match v !! i, v !! j with
  | Some a, Some b => <[j := a]> (<[i := b]> v)
  | _, _ => v
  end.

Definition move_median_to_first (v : list A) (result a b c : nat) : list A :=
  if less v a b then
    if less v b c then iter_swap v result b
    else if less v a c then iter_swap v result c
    else iter_swap v result a
  else if less v a c then iter_swap v result a
  else if less v b c then iter_swap v result c
  else iter_swap v result b.

(** [while (__comp(__first, __pivot)) ++__first;] *)
Fixpoint skip_up (fuel : nat) (v : list A) (first pivot : nat) : nat :=
  match fuel with
  | O => first
  | S fuel' => if less v first pivot then skip_up fuel' v (S first) pivot else first
  end.

(** [while (__comp(__pivot, __last)) --__last;] *)
Fixpoint skip_down (fuel : nat) (v : list A) (pivot last : nat) : nat :=
  match fuel with
  | O => last
  | S fuel' => if less v pivot last then skip_down fuel' v pivot (last - 1) else last
  end.

Fixpoint unguarded_partition (fuel : nat) (v : list A) (first last pivot : nat)
  : list A * nat :=
  match fuel with
  | O => (v, first)
  | S fuel' =>
      let first := skip_up (S (length v)) v first pivot in
      let last := skip_down (S (length v)) v pivot (last - 1) in
      if first <? last
      then unguarded_partition fuel' (iter_swap v first last) (S first) last pivot
      else (v, first)
  end.

Definition unguarded_partition_pivot (v : list A) (first last : nat) : list A * nat :=
  let mid := first + (last - first) / 2 in
  let v := move_median_to_first v first (first + 1) mid (last - 1) in
  unguarded_partition (S (length v)) v (first + 1) last first.

(** [__push_heap]: the hole moves up while its parent is less than
    [value]. *)
Fixpoint push_heap (fuel : nat) (v : list A) (first holeIndex topIndex : nat) (value : A)
  : list A :=
  match fuel with
  | O => <[first + holeIndex := value]> v
  | S fuel' =>
      let parent := (holeIndex - 1) / 2 in
      match v !! (first + parent) with
      | Some p =>
          if (topIndex <? holeIndex) && comp p value
          then push_heap fuel' (<[first + holeIndex := p]> v) first parent topIndex value
          else <[first + holeIndex := value]> v
      | None => <[first + holeIndex := value]> v
      end
  end.

(** The loop of [__adjust_heap]: the hole moves down to the larger
    child. *)
Fixpoint sift_down (fuel : nat) (v : list A) (first holeIndex secondChild len : nat)
  : list A * nat * nat :=
  match fuel with
  | O => (v, holeIndex, secondChild)
  | S fuel' =>
      if secondChild <? (len - 1) / 2 then
        let child := 2 * (secondChild + 1) in
        let child := if less v (first + child) (first + (child - 1))
                     then child - 1 else child in
        match v !! (first + child) with
        | Some c => sift_down fuel' (<[first + holeIndex := c]> v) first child child len
        | None => (v, holeIndex, secondChild)
        end
      else (v, holeIndex, secondChild)
  end.

Definition adjust_heap (v : list A) (first holeIndex len : nat) (value : A) : list A :=
  let '(v, hole, secondChild) := sift_down len v first holeIndex holeIndex len in
  let '(v, hole) :=
    if Nat.even len && (secondChild =? (len - 2) / 2) then
      let child := 2 * (secondChild + 1) in
      match v !! (first + (child - 1)) with
      | Some c => (<[first + hole := c]> v, child - 1)
      | None => (v, hole)
      end
    else (v, hole) in
  push_heap len v first hole holeIndex value.

(** The loop of [__make_heap], from [parent] down to 0. *)
Fixpoint make_heap_from (parent : nat) (v : list A) (first len : nat) : list A :=
  let v := match v !! (first + parent) with
           | Some value => adjust_heap v first parent len value
           | None => v
           end in
  match parent with
  | O => v
  | S parent' => make_heap_from parent' v first len
  end.

Definition make_heap (v : list A) (first last : nat) : list A :=
  if last - first <? 2 then v
  else make_heap_from ((last - first - 2) / 2) v first (last - first).

Definition pop_heap (v : list A) (first last result : nat) : list A :=
  match v !! result, v !! first with
  | Some value, Some top => adjust_heap (<[result := top]> v) first 0 (last - first) value
  | _, _ => v
  end.

(** [__sort_heap] on the range of [n] elements from [first]. *)
Fixpoint sort_heap (n : nat) (v : list A) (first : nat) : list A :=
  match n with
  | O => v
  | S n' => if 1 <? n then sort_heap n' (pop_heap v first (first + n') (first + n')) first
            else v
  end.

(** [__partial_sort(first, last, last)]: the whole range by heapsort. *)
Definition partial_sort (v : list A) (first last : nat) : list A :=
  sort_heap (last - first) (make_heap v first last) first.

Fixpoint introsort_loop (depth_limit : nat) (v : list A) (first last : nat) : list A :=
  if 16 <? last - first then
    match depth_limit with
    | O => partial_sort v first last
    | S depth_limit' =>
        let '(v, cut) := unguarded_partition_pivot v first last in
        let v := introsort_loop depth_limit' v cut last in
        introsort_loop depth_limit' v first cut
    end
  else v.

(** [__unguarded_linear_insert] of [value], taken from position [last]. *)
Fixpoint unguarded_linear_insert (fuel : nat) (v : list A) (last : nat) (value : A)
  : list A :=
  match fuel with
  | O => <[last := value]> v
  | S fuel' =>
      match v !! (last - 1) with
      | Some next =>
          if (0 <? last) && comp value next
          then unguarded_linear_insert fuel' (<[last := next]> v) (last - 1) value
          else <[last := value]> v
      | None => <[last := value]> v
      end
  end.

(** One turn of the loop of [__insertion_sort]. *)
Definition insertion_step (first : nat) (v : list A) (i : nat) : list A :=
  match v !! i, v !! first with
  | Some value, Some least =>
      if comp value least
      then take first v ++ value :: take (i - first) (drop first v) ++ drop (S i) v
      else unguarded_linear_insert (length v) v i value
  | _, _ => v
  end.

Definition insertion_sort (v : list A) (first last : nat) : list A :=
  if first =? last then v
  else fold_left (insertion_step first) (seq (S first) (last - S first)) v.

Definition unguarded_insertion_sort (v : list A) (first last : nat) : list A :=
  fold_left (fun v i => match v !! i with
                        | Some value => unguarded_linear_insert (length v) v i value
                        | None => v
                        end)
            (seq first (last - first)) v.

Definition final_insertion_sort (v : list A) (first last : nat) : list A :=
  if 16 <? last - first then
    unguarded_insertion_sort (insertion_sort v first (first + 16)) (first + 16) last
  else insertion_sort v first last.

(** [std::sort(v.begin(), v.end(), comp)] *)
Definition sort (v : list A) : list A :=
  let n := length v in
  if n =? 0 then v
  else final_insertion_sort (introsort_loop (2 * Nat.log2 n) v 0 n) 0 n.

End Introsort.

End Gnu.

Definition gnu_sort (A : Type) (comp : A -> A -> bool) (v : list A) : list A :=
  Gnu.sort comp v.

(** What the insertion sort needs of a strict weak ordering on the
    elements of [dom]: irreflexivity and transitivity. *)
Definition strict_on {A : Type} (lt : A -> A -> bool) (dom : list A) : Prop :=
  (forall a, In a dom -> lt a a = false) /\
  (forall a b c, In a dom -> In b dom -> In c dom ->
                 lt a b = true -> lt b c = true -> lt a c = true).

(** Lexicographic comparison of triples of integers. *)
Definition lex_compare (a b : Z * Z * Z) : comparison :=
  let '(s1, e1, m1) := a in
  let '(s2, e2, m2) := b in
  match s1 ?= s2 with
  | Eq => match e1 ?= e2 with
          | Eq => m1 ?= m2
          | c => c
          end
  | c => c
  end.

Definition lex_lt (a b : Z * Z * Z) : Prop :=
  let '(s1, e1, m1) := a in
  let '(s2, e2, m2) := b in
  s1 < s2 \/ (s1 = s2 /\ (e1 < e2 \/ (e1 = e2 /\ m1 < m2))).

(** ** Vocabulary of the statements *)

Section Vocabulary.

Context {F : Type} {FA : FloatArith F}.

(** Sum and arithmetic mean as the first loop of [applyTransform]
    computes them, left to right from 0. *)
Definition fsum (l : list F) : F := fold_left fadd l (of_int 0).

Definition mean (l : list F) : F := fdiv (fsum l) (of_int (Z.of_nat (length l))).

(** Euclidean distance of a vertex to the point [(cx, cy, cz)]. *)
Definition dist_to (cx cy cz : F) (v : Vertex F) : F :=
  let dx := fsub (x v) cx in
  let dy := fsub (y v) cy in
  let dz := fsub (z v) cz in
  fsqrt (fadd (fadd (fmul dx dx) (fmul dy dy)) (fmul dz dz)).

(** Largest element of the list, 0 when there is none above 0. *)
Definition running_max (l : list F) : F :=
  fold_left (fun m d => if flt m d then d else m) l (of_int 0).

(** The transformed vertex of [v] for centre [(cx, cy, cz)], scale [m]
    and rotation angles [tX], [tY] in radians, written out. *)
Definition placed (cx cy cz m tX tY : F) (v : Vertex F) : Vertex F :=
  let nx := fdiv (fsub (x v) cx) m in
  let ny := fdiv (fsub (y v) cy) m in
  let nz := fdiv (fsub (z v) cz) m in
  let y1 := fsub (fmul ny (cosf tX)) (fmul nz (sinf tX)) in
  let z1 := fadd (fmul ny (sinf tX)) (fmul nz (cosf tX)) in
  mkVertex (id v)
           (fadd (fmul nx (cosf tY)) (fmul z1 (sinf tY)))
           y1
           (fadd (fmul (fopp nx) (sinf tY)) (fmul z1 (cosf tY))).

Definition coords (v : Vertex F) : F * F * F := (x v, y v, z v).

(** The three vertices a face names, by position in [tr]. *)
Definition corners (tr : list (Vertex F)) (f : Face)
  : result (Vertex F * Vertex F * Vertex F) :=
  a <- at_index tr (v1 f - 1) ;;
  b <- at_index tr (v2 f - 1) ;;
  c <- at_index tr (v3 f - 1) ;;
  Ok (a, b, c).

Definition in_range (n : nat) (i : Z) : bool := (1 <=? i) && (i <=? Z.of_nat n).

Definition valid_face (n : nat) (f : Face) : bool :=
  in_range n (v1 f) && in_range n (v2 f) && in_range n (v3 f).

(** Mean of the three Z coordinates. *)
Definition mean_z (a b c : Vertex F) : F :=
  fdiv (fadd (fadd (z a) (z b)) (z c)) (fdec 3 0).

(** Length of the cross-product normal below [1e-6f]. *)
Definition degenerate (a b c : Vertex F) : bool :=
  flt (norm3 (cross a b c)) (fdec 1 (-6)).

(** Z component of the unit normal. *)
Definition unit_nz (a b c : Vertex F) : F :=
  fdiv (snd (cross a b c)) (norm3 (cross a b c)).

Definition intensity (a b c : Vertex F) : F := fabs (unit_nz a b c).

Definition front_facing (a b c : Vertex F) : bool := flt (of_int 0) (unit_nz a b c).

(** The five calls that paint one triangle. *)
Definition paint (p1 p2 p3 : POINT) (color : COLORREF) : list DrawCmd :=
  [Polygon p1 p2 p3 color; MoveToEx p1; LineTo p2 black; LineTo p3 black; LineTo p1 black].

(** The dot of a vertex. *)
Definition dot (p : POINT) : DrawCmd :=
  Ellipse (pt_x p - 3) (pt_y p - 3) (pt_x p + 3) (pt_y p + 3) (RGB 0 0 255).

Definition is_polygon (c : DrawCmd) : bool :=
  match c with Polygon _ _ _ _ => true | _ => false end.

Definition is_ellipse (c : DrawCmd) : bool :=
  match c with Ellipse _ _ _ _ _ => true | _ => false end.

(** The vector [sortedFaces] before it is sorted. *)
Definition indexed (tr : list (Vertex F)) (fs : list Face) : list (IndexedFace F) :=
  flat_map (fun f => match corners tr f with
                     | Ok (a, b, c) => [mkIndexedFace f (mean_z a b c)]
                     | Undefined _ => []
                     end) fs.

(** A face that the shading loop skips. *)
Definition skipped (tr : list (Vertex F)) (f : Face) : bool :=
  match corners tr f with
  | Ok (a, b, c) => degenerate a b c
  | Undefined _ => false
  end.

(** [lights tr f i]: face [f] is not skipped, faces the viewer and has
    the vertex at position [i] (0-based) as a corner. *)
Definition lights (tr : list (Vertex F)) (f : Face) (i : nat) : Prop :=
  exists a b c,
    corners tr f = Ok (a, b, c) /\
    degenerate a b c = false /\
    front_facing a b c = true /\
    (Z.of_nat i = v1 f - 1 \/ Z.of_nat i = v2 f - 1 \/ Z.of_nat i = v3 f - 1).

(** [painted tr f cs]: [cs] is what the shading loop draws for [f]. *)
Definition painted (tr : list (Vertex F)) (f : Face) (cs : list DrawCmd) : Prop :=
  exists a b c,
    corners tr f = Ok (a, b, c) /\
    if degenerate a b c then cs = []
    else exists blue p1 p2 p3,
        to_int (fadd (of_int 95) (fmul (intensity a b c) (of_int 160))) = Some blue /\
        project a = Some p1 /\ project b = Some p2 /\ project c = Some p3 /\
        cs = paint p1 p2 p3 (RGB 0 0 blue).

(** [vertexVisible] after face [f]. *)
Definition mark (f : Face) (vis : list bool) : list bool :=
  <[Z.to_nat (v3 f - 1) := true]>
    (<[Z.to_nat (v2 f - 1) := true]> (<[Z.to_nat (v1 f - 1) := true]> vis)).

(** A vertex position that gets a dot: flag set and not [z <= 0]. *)
Definition shown (tr : list (Vertex F)) (vis : list bool) (i : nat) : bool :=
  match vis !! i, tr !! i with
  | Some true, Some v => negb (fle (z v) (of_int 0))
  | _, _ => false
  end.

(** [p] is the projection of the vertex at position [i]. *)
Definition projects_to (tr : list (Vertex F)) (i : nat) (p : POINT) : Prop :=
  exists v, tr !! i = Some v /\ project v = Some p.

(** [cmd] is the filled triangle of face [f]. *)
Definition fill_of (tr : list (Vertex F)) (f : Face) (cmd : DrawCmd) : Prop :=
  exists cs, painted tr f cs /\ head cs = Some cmd.

(** The key of an entry of [sortedFaces] is the mean Z of its face. *)
Definition keyed (tr : list (Vertex F)) (e : IndexedFace F) : Prop :=
  exists a b c, corners tr (face e) = Ok (a, b, c) /\ avgZ e = mean_z a b c.

(** Painter's order of a command stream: the [Polygon] calls are, one
    for one and in order, the fills of a sequence [drawn] that holds
    the faces of the mesh that are not skipped, each keyed by its mean
    Z, and in which no entry has a smaller key than an earlier one. *)
Definition back_to_front (tr : list (Vertex F)) (fs : list Face)
           (cmds : list DrawCmd) : Prop :=
  exists drawn : list (IndexedFace F),
    Permutation (map face drawn) (List.filter (fun f => negb (skipped tr f)) fs) /\
    Forall (keyed tr) drawn /\
    StronglySorted (fun e1 e2 => flt (avgZ e2) (avgZ e1) = false) drawn /\
    Forall2 (fun e cmd => fill_of tr (face e) cmd) drawn (List.filter is_polygon cmds).

(** A vertex position that the claim gives a dot: flag set and [z > 0]. *)
Definition marked (tr : list (Vertex F)) (vis : list bool) (i : nat) : bool :=
  match vis !! i, tr !! i with
  | Some true, Some v => flt (of_int 0) (z v)
  | _, _ => false
  end.

(** The unit normal of the claim, [n = normalize ((v2 - v1) x (v3 - v1))],
    written out on vectors, apart from the loop body. *)
Definition vec_sub (p q : Vertex F) : F * F * F :=
  (fsub (x p) (x q), fsub (y p) (y q), fsub (z p) (z q)).

Definition cross_product (u v : F * F * F) : F * F * F :=
  let '(ux, uy, uz) := u in
  let '(vx, vy, vz) := v in
  (fsub (fmul uy vz) (fmul uz vy),
   fsub (fmul uz vx) (fmul ux vz),
   fsub (fmul ux vy) (fmul uy vx)).

Definition vec_length (n : F * F * F) : F :=
  let '(nx, ny, nz) := n in
  fsqrt (fadd (fadd (fmul nx nx) (fmul ny ny)) (fmul nz nz)).

Definition normalize (n : F * F * F) : F * F * F :=
  let '(nx, ny, nz) := n in
  (fdiv nx (vec_length n), fdiv ny (vec_length n), fdiv nz (vec_length n)).

Definition face_normal (p1 p2 p3 : Vertex F) : F * F * F :=
  cross_product (vec_sub p2 p1) (vec_sub p3 p1).

Definition unit_normal (p1 p2 p3 : Vertex F) : F * F * F :=
  normalize (face_normal p1 p2 p3).

(** A triangle whose normal is not shorter than [1e-6f]. *)
Definition non_degenerate (p1 p2 p3 : Vertex F) : Prop :=
  flt (vec_length (face_normal p1 p2 p3)) (fdec 1 (-6)) = false.

(** [|n.z|] of the unit normal. *)
Definition shading_intensity (p1 p2 p3 : Vertex F) : F :=
  fabs (snd (unit_normal p1 p2 p3)).

(** [0x5F + intensity * (0xFF - 0x5F)], converted to [int]. *)
Definition blue_channel (p1 p2 p3 : Vertex F) : option Z :=
  to_int (fadd (of_int 0x5F) (fmul (shading_intensity p1 p2 p3) (of_int (0xFF - 0x5F)))).

(** Every non-degenerate face is filled, in blue only, the blue channel
    being [0x5F + |n.z| * (0xFF - 0x5F)] for its unit normal [n]; and
    every [Polygon] of the stream is such a fill. *)
Definition shaded_by_normal (tr : list (Vertex F)) (fs : list Face)
           (cmds : list DrawCmd) : Prop :=
  (forall f a b c,
      In f fs -> corners tr f = Ok (a, b, c) -> non_degenerate a b c ->
      exists blue p1 p2 p3,
        blue_channel a b c = Some blue /\
        project a = Some p1 /\ project b = Some p2 /\ project c = Some p3 /\
        In (Polygon p1 p2 p3 (RGB 0 0 blue)) cmds /\
        GetRValue (RGB 0 0 blue) = 0 /\
        GetGValue (RGB 0 0 blue) = 0 /\
        GetBValue (RGB 0 0 blue) = BYTE blue) /\
  (forall cmd,
      In cmd cmds -> is_polygon cmd = true ->
      exists f a b c blue p1 p2 p3,
        In f fs /\ corners tr f = Ok (a, b, c) /\ non_degenerate a b c /\
        blue_channel a b c = Some blue /\
        project a = Some p1 /\ project b = Some p2 /\ project c = Some p3 /\
        cmd = Polygon p1 p2 p3 (RGB 0 0 blue)).

(** Visibility flags and dots of a command stream: a vertex position
    is flagged exactly when some face lights it, and the [Ellipse]
    calls are, in order of position, the dots of the flagged vertices
    with [z > 0], each at the projection of its vertex. *)
Definition visibility_dots (tr : list (Vertex F)) (fs : list Face)
           (cmds : list DrawCmd) : Prop :=
  exists vis : list bool,
    length vis = length tr /\
    (forall i, vis !! i = Some true <-> exists f, In f fs /\ lights tr f i) /\
    exists ps,
      List.filter is_ellipse cmds = map dot ps /\
      Forall2 (projects_to tr) (List.filter (marked tr vis) (seq 0 (length tr))) ps.

(** A vertex with its [id] blanked. *)
Definition strip (v : Vertex F) : Vertex F := mkVertex 0 (x v) (y v) (z v).

End Vocabulary.

(** A vertex none of whose coordinates is a finite number. *)
Definition not_finite (t : Vertex spec_float) : Prop :=
  B32.is_finite (x t) = false /\ B32.is_finite (y t) = false /\ B32.is_finite (z t) = false.

(** A small polynomial [cosf]/[sinf], exact at 0, used to run examples. *)
Module Poly.
Import B32.
Definition sq (a : spec_float) := mul a a.
Definition cosf (a : spec_float) : spec_float :=
  add (sub (of_Z 1) (div (sq a) (of_Z 2))) (div (sq (sq a)) (of_Z 24)).
Definition sinf (a : spec_float) : spec_float :=
  add (sub a (div (mul a (sq a)) (of_Z 6))) (div (mul a (sq (sq a))) (of_Z 120)).
Definition m : libm := {| libm_cosf := cosf; libm_sinf := sinf |}.
End Poly.


(** Example meshes in binary32. *)
Definition vtx (i a b c : Z) : Vertex spec_float :=
  mkVertex i (B32.of_Z a) (B32.of_Z b) (B32.of_Z c).

Definition b32 : FloatArith spec_float := binary32_arith Poly.m.

(** Two triangles in the plane [z = 0]: their depth keys are equal. *)
Definition flat_pair : Globals spec_float :=
  mkGlobals []
            [mkFace 1 2 3; mkFace 4 5 6]
            [vtx 1 0 0 0; vtx 2 1 0 0; vtx 3 0 1 0;
             vtx 4 (-1) 0 0; vtx 5 0 0 0; vtx 6 (-1) (-1) 0]
            (B32.of_Z 0) (B32.of_Z 0).

(** A strip of twenty triangles over twenty-two vertices in the plane
    [z = 0], as loaded: vertex [k] at [(k - 1, (k - 1) mod 2, 0)], face
    [k] over the vertices [k], [k + 1], [k + 2]. *)
Definition flat_strip : Globals spec_float :=
  mkGlobals (map (fun k => vtx (k + 1) k (k mod 2) 0) (map Z.of_nat (seq 0 22)))
            (map (fun k => mkFace (k + 1) (k + 2) (k + 3)) (map Z.of_nat (seq 0 20)))
            [] (B32.of_Z 0) (B32.of_Z 0).

(** The triangle (0,0,0), (1,0,0), (0,1,0) as loaded, not yet transformed. *)
Definition unit_triangle : Globals spec_float :=
  mkGlobals [vtx 1 0 0 0; vtx 2 1 0 0; vtx 3 0 1 0] [mkFace 1 2 3] []
            (B32.of_Z 0) (B32.of_Z 0).

(** Three vertices and the face record "1 2 7". *)
Definition stray : Globals spec_float :=
  mkGlobals [vtx 1 0 0 0; vtx 2 1 0 0; vtx 3 0 1 0] [mkFace 1 2 7] []
            (B32.of_Z 0) (B32.of_Z 0).

(** A mesh of a single vertex, and the empty mesh. *)
Definition single_point : Globals spec_float :=
  mkGlobals [vtx 1 1 2 3] [] [] (B32.of_Z 0) (B32.of_Z 0).

Definition empty_mesh : Globals spec_float :=
  mkGlobals [] [] [] (B32.of_Z 0) (B32.of_Z 0).

(** Two vertices with [x = 3e38]: their sum is above the largest float. *)
Definition far_pair : Globals spec_float :=
  mkGlobals [mkVertex 1 (B32.of_dec 3 38) (B32.of_Z 0) (B32.of_Z 0);
             mkVertex 2 (B32.of_dec 3 38) (B32.of_Z 1) (B32.of_Z 0)] [] []
            (B32.of_Z 30) (B32.of_Z 45).

(** Five vertices far from the origin, four of them at one point: a
    survey in metres.  Every coordinate and every sum is far below the
    largest float. *)
Definition survey : Globals spec_float :=
  mkGlobals [vtx 1 16777000 0 0; vtx 2 16777000 0 0; vtx 3 16777000 0 0;
             vtx 4 16777000 0 0; vtx 5 16777004 0 0] [] []
            (B32.of_Z 0) (B32.of_Z 0).

(** The triangle of [unit_triangle] under other [id]s. *)
Definition renamed_triangle : Globals spec_float :=
  mkGlobals [vtx 7 0 0 0; vtx 8 1 0 0; vtx 9 0 1 0] [mkFace 1 2 3] []
            (B32.of_Z 0) (B32.of_Z 0).

(** A tetrahedron with one face listed a second time with its corners
    collapsed. *)
Definition tetra : Globals spec_float :=
  mkGlobals []
            [mkFace 1 3 2; mkFace 1 2 4; mkFace 2 3 4; mkFace 3 1 4; mkFace 1 1 2]
            [vtx 1 (-1) (-1) (-1); vtx 2 1 (-1) (-1); vtx 3 0 1 (-1); vtx 4 0 0 1]
            (B32.of_Z 0) (B32.of_Z 0).

Definition tetra_cmds : list DrawCmd :=
  Eval vm_compute in
    match drawShadedModel (FA := b32) insertion_sort tetra with
    | Ok cmds => cmds
    | Undefined _ => []
    end.

(** A session on the unit triangle: press at (10,10), drag to (20,30),
    repaint, release. *)
Definition viewer0 : Viewer spec_float :=
  mkViewer (applyTransform (FA := b32) unit_triangle) false (mkPOINT 0 0).

Definition at_point (msg px py : Z) : MSG := mkMSG msg 0 (px + 65536 * py).

Definition drag_session : list MSG :=
  [at_point WM_LBUTTONDOWN 10 10; at_point WM_MOUSEMOVE 20 30;
   mkMSG WM_PAINT 0 0; at_point WM_LBUTTONUP 20 30].

Definition drag_session_end : Viewer spec_float * list Effect :=
  Eval vm_compute in
    match pump (FA := b32) insertion_sort viewer0 drag_session with
    | Ok r => r
    | Undefined _ => (viewer0, [])
    end.

(** The same without ever pressing the button. *)
Definition idle_session : list MSG :=
  [at_point WM_MOUSEMOVE 20 30; mkMSG WM_PAINT 0 0; at_point WM_LBUTTONUP 20 30;
   mkMSG 0x0005 0 0; mkMSG WM_DESTROY 0 0].

Definition idle_session_end : Viewer spec_float * list Effect :=
  Eval vm_compute in
    match pump (FA := b32) insertion_sort viewer0 idle_session with
    | Ok r => r
    | Undefined _ => (viewer0, [])
    end.

(** An [object.txt] for the unit triangle, with a blank line and commas,
    and a run of the program on it under the drag session. *)
Definition triangle_txt : string :=
  text ["3 1"; "1 0 0 0"; ""; "2, 1, 0, 0"; "3 0 1 0"; "1 2 3"]%string.

Definition triangle_run : @Finished spec_float :=
  Eval vm_compute in
    match WinMain (FA := b32) insertion_sort Extract.header (Extract.vertex (FA := b32))
                  Extract.face 8 (Some triangle_txt) true drag_session with
    | Some (Ok fin) => fin
    | _ => mkFinished 2 [] None
    end.

(** ** Further vocabulary *)

(** A stream with its commas read as spaces. *)
Definition spaced (file : ifstream) : ifstream :=
  mkStream (replace_commas (buffer file)) (eofbit file) (failbit file).

(** The records of a sequence of lines. *)
Definition records_of {R : Type} (extract : string -> R) (ls : list string) : list R :=
  map (fun l => extract (replace_commas l)) (List.filter nonblank ls).

(** The three points of a [Polygon] call, and the three points at
    which face [f] is painted. *)
Definition polygon_points (c : DrawCmd) : option (POINT * POINT * POINT) :=
  match c with
  | Polygon p1 p2 p3 _ => Some (p1, p2, p3)
  | _ => None
  end.

Definition fill_points {F : Type} {FA : FloatArith F} (tr : list (Vertex F)) (f : Face)
  : option (POINT * POINT * POINT) :=
  match corners tr f with
  | Ok (a, b, c) =>
      match project a, project b, project c with
      | Some p1, Some p2, Some p3 => Some (p1, p2, p3)
      | _, _, _ => None
      end
  | Undefined _ => None
  end.

(** One filled triangle with its outline. *)
Definition outlined (t : POINT * POINT * POINT * Z) : list DrawCmd :=
  let '(p1, p2, p3, blue) := t in paint p1 p2 p3 (RGB 0 0 blue).

(** [q] is [p] with the sign turned, or both are zeros. *)
Definition flipped (p q : spec_float) : Prop :=
  q = SFopp p \/
  (exists s s', p = S754_zero s /\ q = S754_zero s').

(** * Properties *)

(** ** Generic facts about the loops *)

Lemma bind_Ok {A B : Type} (m : result A) (k : A -> result B) (b : B) :
  bind m k = Ok b <-> exists a, m = Ok a /\ k a = Ok b.
Proof.
  destruct m as [a|f]; simpl; split.
  - intros H. exists a. split; [reflexivity|exact H].
  - intros (a' & Ha & Hk). injection Ha as ->. exact Hk.
  - discriminate.
  - intros (a' & Ha & _). discriminate.
Qed.

Lemma foldM_app {A S : Type} (body : S -> A -> result S) (l1 l2 : list A) (s : S) :
  foldM body (l1 ++ l2) s = (s' <- foldM body l1 s ;; foldM body l2 s').
Proof.
  revert s. induction l1 as [|a l1 IH]; intros s; simpl; [reflexivity|].
  destruct (body s a) as [s1|f]; simpl; [apply IH|reflexivity].
Qed.

Lemma at_index_Ok {A : Type} (vec : list A) (i : Z) (a : A) :
  at_index vec i = Ok a <-> 0 <= i /\ vec !! Z.to_nat i = Some a.
Proof.
  unfold at_index. destruct (Z.leb_spec 0 i) as [Hi|Hi].
  - destruct (vec !! Z.to_nat i) as [a'|]; split.
    + intros [= ->]. auto.
    + intros [_ [= ->]]. reflexivity.
    + discriminate.
    + intros [_ [=]].
  - split; [discriminate|]. intros [Hi' _]. lia.
Qed.

Lemma at_index_fault {A : Type} (vec : list A) (i : Z) (f : fault) :
  at_index vec i = Undefined f -> f = OutOfBounds /\ ~ (0 <= i < Z.of_nat (length vec)).
Proof.
  unfold at_index. destruct (Z.leb_spec 0 i) as [Hi|Hi].
  - destruct (vec !! Z.to_nat i) as [a'|] eqn:E; [discriminate|].
    intros [= <-]. split; [reflexivity|].
    apply lookup_ge_None in E. lia.
  - intros [= <-]. split; [reflexivity|]. lia.
Qed.

Lemma at_index_in_range {A : Type} (vec : list A) (i : Z) :
  0 <= i < Z.of_nat (length vec) -> exists a, at_index vec i = Ok a.
Proof.
  intros Hi. destruct (at_index vec i) as [a|f] eqn:E; [eauto|].
  apply at_index_fault in E. tauto.
Qed.

Lemma set_index_Ok {A : Type} (vec : list A) (i : Z) (a : A) (vec' : list A) :
  set_index vec i a = Ok vec' <->
  0 <= i < Z.of_nat (length vec) /\ vec' = <[Z.to_nat i := a]> vec.
Proof.
  unfold set_index.
  destruct (Z.leb_spec 0 i), (Z.ltb_spec i (Z.of_nat (length vec))); simpl;
    split; try discriminate; try (intros [? ?]; lia).
  - intros [= <-]. split; [lia|reflexivity].
  - intros [_ ->]. reflexivity.
Qed.

(** ** Insertion sort meets the contract of [std::sort] *)

Section InsertionSort.

Context {A : Type} (lt : A -> A -> bool).

Lemma insert_sorted_perm (a : A) (l : list A) :
  Permutation (a :: l) (insert_sorted lt a l).
Proof.
  induction l as [|b l IH]; simpl; [reflexivity|].
  destruct (lt a b); [reflexivity|].
  rewrite perm_swap. apply perm_skip, IH.
Qed.

Lemma insertion_sort_perm (l : list A) : Permutation l (insertion_sort A lt l).
Proof.
  induction l as [|a l IH]; simpl; [reflexivity|].
  rewrite <- insert_sorted_perm. apply perm_skip, IH.
Qed.

Lemma strict_weak_onb_strict (dom : list A) :
  strict_weak_onb lt dom = true -> strict_on lt dom.
Proof.
  unfold strict_weak_onb. rewrite andb_true_iff, !forallb_forall.
  intros [Hirr Htr]. split.
  - intros a Ha. apply Hirr in Ha. destruct (lt a a); [discriminate|reflexivity].
  - intros a b c Ha Hb Hc Hab Hbc.
    specialize (Htr a Ha). rewrite forallb_forall in Htr.
    specialize (Htr b Hb). rewrite forallb_forall in Htr.
    specialize (Htr c Hc). rewrite Hab, Hbc in Htr. simpl in Htr.
    destruct (lt a c); [reflexivity|discriminate].
Qed.

Lemma insert_sorted_sorted (dom : list A) (a : A) (l : list A) :
  strict_on lt dom -> In a dom -> (forall b, In b l -> In b dom) ->
  StronglySorted (fun a b => lt b a = false) l ->
  StronglySorted (fun a b => lt b a = false) (insert_sorted lt a l).
Proof.
  intros [Hirr Htr] Ha. induction l as [|b l IH]; intros Hdom Hs; simpl.
  - constructor; constructor.
  - apply StronglySorted_inv in Hs as [Hs Hb].
    destruct (lt a b) eqn:Hab.
    + constructor; [constructor; assumption|].
      assert (Hba : lt b a = false).
      { destruct (lt b a) eqn:E; [|reflexivity].
        rewrite <- (Hirr a Ha). symmetry.
        apply (Htr a b a); auto. apply Hdom. left. reflexivity. }
      constructor; [exact Hba|].
      rewrite List.Forall_forall in Hb |- *. intros c Hc.
      destruct (lt c a) eqn:E; [|reflexivity].
      rewrite <- (Hb c Hc). symmetry.
      apply (Htr c a b); auto; apply Hdom; [right; exact Hc|left; reflexivity].
    + constructor.
      * apply IH; [|exact Hs]. intros c Hc. apply Hdom. right. exact Hc.
      * rewrite List.Forall_forall in Hb |- *. intros c Hc.
        apply (Permutation_in _ (Permutation_sym (insert_sorted_perm a l))) in Hc.
        destruct Hc as [<-|Hc]; [exact Hab|apply Hb, Hc].
Qed.

Lemma insertion_sort_sorted (dom l : list A) :
  strict_on lt dom -> (forall b, In b l -> In b dom) ->
  StronglySorted (fun a b => lt b a = false) (insertion_sort A lt l).
Proof.
  intros Hst. induction l as [|a l IH]; intros Hdom; simpl; [constructor|].
  apply (insert_sorted_sorted dom); auto.
  - apply Hdom. left. reflexivity.
  - intros b Hb. apply Hdom. right.
    apply (Permutation_in _ (Permutation_sym (insertion_sort_perm l))), Hb.
  - apply IH. intros b Hb. apply Hdom. right. exact Hb.
Qed.

End InsertionSort.

Lemma insertion_sort_contract : sort_contract insertion_sort.
Proof.
  intros A lt l Hswo. split.
  - apply insertion_sort_perm.
  - apply (insertion_sort_sorted lt l l); [|auto].
    apply strict_weak_onb_strict, Hswo.
Qed.

(** ** The transform pipeline *)

Section TransformFacts.

Context {F : Type} {FA : FloatArith F}.

Lemma fold_sum_step (vs : list (Vertex F)) (sx sy sz : F) :
  fold_left sum_step vs (sx, sy, sz) =
  (fold_left fadd (map x vs) sx, fold_left fadd (map y vs) sy,
   fold_left fadd (map z vs) sz).
Proof.
  revert sx sy sz. induction vs as [|v vs IH]; intros; simpl; [reflexivity|].
  apply IH.
Qed.

Lemma fold_extent_step (cx cy cz : F) (vs : list (Vertex F)) (m : F) :
  fold_left (extent_step cx cy cz) vs m =
  fold_left (fun m d => if flt m d then d else m) (map (dist_to cx cy cz) vs) m.
Proof.
  revert m. induction vs as [|v vs IH]; intros; simpl; [reflexivity|].
  apply IH.
Qed.

Lemma fold_push_step (cx cy cz m aX aY : F) (vs out : list (Vertex F)) :
  fold_left (push_step cx cy cz m aX aY) vs out =
  out ++ map (fun v => rotateY (rotateX (mkVertex (id v)
                                           (fdiv (fsub (x v) cx) m)
                                           (fdiv (fsub (y v) cy) m)
                                           (fdiv (fsub (z v) cz) m)) aX) aY) vs.
Proof.
  revert out. induction vs as [|v vs IH]; intros; simpl.
  - symmetry. apply app_nil_r.
  - rewrite IH. unfold push_step. rewrite <- app_assoc. reflexivity.
Qed.

Lemma applyTransform_map (g : Globals F) :
  let vs := vertices g in
  let cx := mean (map x vs) in
  let cy := mean (map y vs) in
  let cz := mean (map z vs) in
  let maxExtent := running_max (map (dist_to cx cy cz) vs) in
  transformed (applyTransform g) =
  map (placed cx cy cz maxExtent (radians (angleX g)) (radians (angleY g))) vs.
Proof.
  unfold applyTransform. rewrite fold_sum_step. cbv zeta.
  rewrite fold_extent_step, fold_push_step. simpl.
  unfold mean, fsum, running_max. rewrite !length_map.
  apply map_ext. intros v. reflexivity.
Qed.

Lemma applyTransform_ids (g : Globals F) :
  length (transformed (applyTransform g)) = length (vertices g) /\
  map id (transformed (applyTransform g)) = map id (vertices g).
Proof.
  rewrite applyTransform_map. cbv zeta. split; [apply length_map|].
  rewrite map_map. reflexivity.
Qed.

Lemma applyTransform_frame (g : Globals F) :
  vertices (applyTransform g) = vertices g /\
  faces (applyTransform g) = faces g /\
  angleX (applyTransform g) = angleX g /\
  angleY (applyTransform g) = angleY g.
Proof.
  unfold applyTransform. rewrite fold_sum_step. cbv zeta. simpl. auto.
Qed.

(** C1.  [applyTransform] returns one vertex per input vertex, in the
    same order and with the same [id]; the vertex is translated by
    minus the centroid (the componentwise mean), divided by
    [maxExtent] (the largest distance to the centroid), rotated about
    the X axis by [angleX] ([y' = y cos t - z sin t],
    [z' = y sin t + z cos t], [x] kept) and then about the Y axis by
    [angleY] ([x' = x cos t + z sin t], [z' = - x sin t + z cos t],
    [y] kept), with [t = angle * 3.14159265 / 180]. *)
Theorem C1_applyTransform_spec (g : Globals F) :
  let vs := vertices g in
  let cx := mean (map x vs) in
  let cy := mean (map y vs) in
  let cz := mean (map z vs) in
  let maxExtent := running_max (map (dist_to cx cy cz) vs) in
  let tX := fdiv (fmul (angleX g) (fdec 314159265 (-8))) (fdec 180 0) in
  let tY := fdiv (fmul (angleY g) (fdec 314159265 (-8))) (fdec 180 0) in
  let out := transformed (applyTransform g) in
  length out = length vs /\
  map id out = map id vs /\
  forall (i : nat) (v : Vertex F),
    vs !! i = Some v ->
    exists t : Vertex F,
      out !! i = Some t /\
      id t = id v /\
      let nx := fdiv (fsub (x v) cx) maxExtent in
      let ny := fdiv (fsub (y v) cy) maxExtent in
      let nz := fdiv (fsub (z v) cz) maxExtent in
      let y1 := fsub (fmul ny (cosf tX)) (fmul nz (sinf tX)) in
      let z1 := fadd (fmul ny (sinf tX)) (fmul nz (cosf tX)) in
      x t = fadd (fmul nx (cosf tY)) (fmul z1 (sinf tY)) /\
      y t = y1 /\
      z t = fadd (fmul (fopp nx) (sinf tY)) (fmul z1 (cosf tY)).
Proof.
  cbv zeta. split; [apply applyTransform_ids|]. split; [apply applyTransform_ids|].
  rewrite applyTransform_map. cbv zeta.
  intros i v Hv. eexists. split.
  - rewrite list_lookup_fmap, Hv. reflexivity.
  - simpl. auto.
Qed.

End TransformFacts.

(** ** The rasterizer's loops *)

Section RasterFacts.

Context {F : Type} {FA : FloatArith F}.

Lemma in_range_index (n : nat) (i : Z) :
  in_range n i = true <-> 0 <= i - 1 < Z.of_nat n.
Proof. unfold in_range. rewrite andb_true_iff, Z.leb_le, Z.leb_le. lia. Qed.

Lemma corners_valid (tr : list (Vertex F)) (f : Face) :
  valid_face (length tr) f = true <-> exists abc, corners tr f = Ok abc.
Proof.
  unfold valid_face, corners. rewrite !andb_true_iff, !in_range_index. split.
  - intros [[H1 H2] H3].
    destruct (at_index_in_range tr _ H1) as [a ->].
    destruct (at_index_in_range tr _ H2) as [b ->].
    destruct (at_index_in_range tr _ H3) as [c ->]. simpl. eauto.
  - intros [abc H].
    destruct (at_index tr (v1 f - 1)) as [a|] eqn:E1; [|discriminate].
    destruct (at_index tr (v2 f - 1)) as [b|] eqn:E2; [|discriminate].
    destruct (at_index tr (v3 f - 1)) as [c|] eqn:E3; [|discriminate].
    apply at_index_Ok in E1 as [? E1], E2 as [? E2], E3 as [? E3].
    apply lookup_lt_Some in E1, E2, E3. lia.
Qed.

Lemma corners_fault (tr : list (Vertex F)) (f : Face) (u : fault) :
  corners tr f = Undefined u -> u = OutOfBounds /\ valid_face (length tr) f = false.
Proof.
  intros H. split.
  - unfold corners in H.
    destruct (at_index tr (v1 f - 1)) as [a|] eqn:E1;
      [|apply at_index_fault in E1 as [-> _]; simpl in H; congruence].
    destruct (at_index tr (v2 f - 1)) as [b|] eqn:E2;
      [|apply at_index_fault in E2 as [-> _]; simpl in H; congruence].
    destruct (at_index tr (v3 f - 1)) as [c|] eqn:E3;
      [|apply at_index_fault in E3 as [-> _]; simpl in H; congruence].
    discriminate.
  - destruct (valid_face (length tr) f) eqn:E; [|reflexivity].
    apply corners_valid in E as [abc E]. congruence.
Qed.

Lemma corners_lookup (tr : list (Vertex F)) (f : Face) (a b c : Vertex F) :
  corners tr f = Ok (a, b, c) ->
  tr !! Z.to_nat (v1 f - 1) = Some a /\
  tr !! Z.to_nat (v2 f - 1) = Some b /\
  tr !! Z.to_nat (v3 f - 1) = Some c /\
  0 <= v1 f - 1 /\ 0 <= v2 f - 1 /\ 0 <= v3 f - 1.
Proof.
  unfold corners. intros H.
  destruct (at_index tr (v1 f - 1)) as [a'|] eqn:E1; [|discriminate].
  destruct (at_index tr (v2 f - 1)) as [b'|] eqn:E2; [|discriminate].
  destruct (at_index tr (v3 f - 1)) as [c'|] eqn:E3; [|discriminate].
  simpl in H. injection H as -> -> ->.
  apply at_index_Ok in E1 as [? E1], E2 as [? E2], E3 as [? E3]. auto 6.
Qed.

(** The loop bodies, read through [corners]. *)
Lemma push_indexed_eq (tr : list (Vertex F)) (acc : list (IndexedFace F)) (f : Face) :
  push_indexed tr acc f =
  match corners tr f with
  | Ok (a, b, c) => Ok (acc ++ [mkIndexedFace f (mean_z a b c)])
  | Undefined u => Undefined u
  end.
Proof.
  unfold push_indexed, corners.
  destruct (at_index tr (v1 f - 1)); simpl; [|reflexivity].
  destruct (at_index tr (v2 f - 1)); simpl; [|reflexivity].
  destruct (at_index tr (v3 f - 1)); simpl; reflexivity.
Qed.

Lemma shade_face_eq (tr : list (Vertex F)) (st : list DrawCmd * list bool)
      (e : IndexedFace F) :
  shade_face tr st e =
  match corners tr (face e) with
  | Ok (a, b, c) =>
      if degenerate a b c then Ok st
      else
        blue <- cast (to_int (fadd (of_int 95) (fmul (intensity a b c) (of_int 160)))) ;;
        p1 <- cast (project a) ;;
        p2 <- cast (project b) ;;
        p3 <- cast (project c) ;;
        let cmds := fst st ++ paint p1 p2 p3 (RGB 0 0 blue) in
        if front_facing a b c then
          vis <- set_index (snd st) (v1 (face e) - 1) true ;;
          vis <- set_index vis (v2 (face e) - 1) true ;;
          vis <- set_index vis (v3 (face e) - 1) true ;;
          Ok (cmds, vis)
        else Ok (cmds, snd st)
  | Undefined u => Undefined u
  end.
Proof.
  unfold shade_face, corners.
  destruct (at_index tr (v1 (face e) - 1)); simpl; [|reflexivity].
  destruct (at_index tr (v2 (face e) - 1)); simpl; [|reflexivity].
  destruct (at_index tr (v3 (face e) - 1)); simpl; reflexivity.
Qed.

(** The first loop. *)
Lemma first_loop_valid (tr : list (Vertex F)) (fs : list Face) (acc : list (IndexedFace F)) :
  forallb (valid_face (length tr)) fs = true ->
  foldM (push_indexed tr) fs acc = Ok (acc ++ indexed tr fs) /\
  map face (indexed tr fs) = fs.
Proof.
  revert acc. induction fs as [|f fs IH]; intros acc Hv; simpl.
  - rewrite app_nil_r. auto.
  - simpl in Hv. apply andb_true_iff in Hv as [Hf Hv].
    rewrite push_indexed_eq. apply corners_valid in Hf as [[[a b] c] Hf].
    rewrite Hf. simpl. destruct (IH (acc ++ [mkIndexedFace f (mean_z a b c)]) Hv) as [-> ->].
    rewrite <- app_assoc. auto.
Qed.

Lemma first_loop_invalid (tr : list (Vertex F)) (fs : list Face) (acc : list (IndexedFace F)) :
  forallb (valid_face (length tr)) fs = false ->
  foldM (push_indexed tr) fs acc = Undefined OutOfBounds.
Proof.
  revert acc. induction fs as [|f fs IH]; intros acc Hv; simpl in *; [discriminate|].
  rewrite push_indexed_eq.
  destruct (corners tr f) as [[[a b] c]|u] eqn:Hf; simpl.
  - apply IH. assert (valid_face (length tr) f = true) as Hf' by (apply corners_valid; eauto).
    rewrite Hf' in Hv. exact Hv.
  - apply corners_fault in Hf as [-> _]. reflexivity.
Qed.

Lemma indexed_entry (tr : list (Vertex F)) (fs : list Face) (e : IndexedFace F) :
  In e (indexed tr fs) ->
  In (face e) fs /\
  exists a b c, corners tr (face e) = Ok (a, b, c) /\ avgZ e = mean_z a b c.
Proof.
  unfold indexed. rewrite in_flat_map. intros (f & Hf & He).
  destruct (corners tr f) as [[[a b] c]|u] eqn:Hc; [|destruct He].
  destruct He as [<-|[]]. simpl. eauto 7.
Qed.

End RasterFacts.

Section ShadingLoop.

Context {F : Type} {FA : FloatArith F}.
Variable tr : list (Vertex F).

Lemma at_index_nat {A : Type} (vec : list A) (i : nat) :
  at_index vec (Z.of_nat i) =
  match vec !! i with Some a => Ok a | None => Undefined OutOfBounds end.
Proof.
  unfold at_index. destruct (Z.leb_spec 0 (Z.of_nat i)); [|lia].
  rewrite Nat2Z.id. reflexivity.
Qed.

Lemma lookup_insert_true (vis : list bool) (j i : nat) :
  (j < length vis)%nat ->
  <[j := true]> vis !! i = Some true <-> i = j \/ vis !! i = Some true.
Proof.
  intros Hj. destruct (decide (j = i)) as [->|Hne].
  - rewrite list_lookup_insert_eq by exact Hj. tauto.
  - rewrite list_lookup_insert_ne by exact Hne. split; [tauto|].
    intros [->|H]; [congruence|exact H].
Qed.

Lemma mark_spec (f : Face) (vis : list bool) :
  valid_face (length vis) f = true ->
  set_index vis (v1 f - 1) true = Ok (<[Z.to_nat (v1 f - 1) := true]> vis) /\
  set_index (<[Z.to_nat (v1 f - 1) := true]> vis) (v2 f - 1) true
  = Ok (<[Z.to_nat (v2 f - 1) := true]> (<[Z.to_nat (v1 f - 1) := true]> vis)) /\
  set_index (<[Z.to_nat (v2 f - 1) := true]> (<[Z.to_nat (v1 f - 1) := true]> vis))
            (v3 f - 1) true = Ok (mark f vis) /\
  length (mark f vis) = length vis /\
  forall i, mark f vis !! i = Some true <->
            vis !! i = Some true \/
            Z.of_nat i = v1 f - 1 \/ Z.of_nat i = v2 f - 1 \/ Z.of_nat i = v3 f - 1.
Proof.
  unfold valid_face. rewrite !andb_true_iff, !in_range_index.
  intros [[H1 H2] H3]. unfold mark.
  repeat split; try (apply set_index_Ok; rewrite ?length_insert; split; [lia|reflexivity]).
  - rewrite !length_insert. reflexivity.
  - rewrite !lookup_insert_true by (rewrite ?length_insert; lia).
    intros [->|[->|[->|H]]]; auto; right; lia.
  - rewrite !lookup_insert_true by (rewrite ?length_insert; lia).
    intros [H|[H|[H|H]]]; auto; [right; right; left|right; left|left]; lia.
Qed.

Lemma shade_step (e : IndexedFace F) (cmds0 cmds : list DrawCmd) (vis0 vis : list bool) :
  length vis0 = length tr ->
  shade_face tr (cmds0, vis0) e = Ok (cmds, vis) ->
  exists cs,
    cmds = cmds0 ++ cs /\
    painted tr (face e) cs /\
    length vis = length tr /\
    forall i, vis !! i = Some true <-> vis0 !! i = Some true \/ lights tr (face e) i.
Proof.
  intros Hlen. rewrite shade_face_eq.
  destruct (corners tr (face e)) as [[[a b] c]|u] eqn:Hc; [|discriminate].
  assert (Hv : valid_face (length vis0) (face e) = true).
  { rewrite Hlen. apply corners_valid. eauto. }
  destruct (degenerate a b c) eqn:Hd.
  - intros [= <- <-]. exists []. rewrite app_nil_r.
    repeat split; auto.
    + exists a, b, c. rewrite Hd. auto.
    + intros [H|(a' & b' & c' & Hc' & Hd' & _)]; [exact H|]. congruence.
  - simpl.
    destruct (to_int _) as [blue|] eqn:Hb; [|discriminate].
    destruct (project a) as [p1|] eqn:Hp1; [|discriminate].
    destruct (project b) as [p2|] eqn:Hp2; [|discriminate].
    destruct (project c) as [p3|] eqn:Hp3; [|discriminate]. simpl.
    assert (Hpaint : painted tr (face e) (paint p1 p2 p3 (RGB 0 0 blue))).
    { exists a, b, c. rewrite Hd. split; [exact Hc|]. exists blue, p1, p2, p3. auto 6. }
    destruct (front_facing a b c) eqn:Hf.
    + destruct (mark_spec (face e) vis0 Hv) as (E1 & E2 & E3 & Hl & Hi).
      rewrite E1. simpl. rewrite E2. simpl. rewrite E3. simpl.
      intros [= <- <-]. eexists. repeat split; eauto; try congruence.
      * intros H. apply Hi in H as [H|H]; [auto|]. right. exists a, b, c. auto.
      * intros [H|(a' & b' & c' & _ & _ & _ & H)]; apply Hi; auto.
    + intros [= <- <-]. eexists. repeat split; eauto.
      intros [H|(a' & b' & c' & Hc' & _ & Hf' & _)]; [exact H|]. congruence.
Qed.

Lemma shade_loop (es : list (IndexedFace F)) (cmds0 cmds : list DrawCmd)
      (vis0 vis : list bool) :
  length vis0 = length tr ->
  foldM (shade_face tr) es (cmds0, vis0) = Ok (cmds, vis) ->
  exists chunks,
    cmds = cmds0 ++ concat chunks /\
    Forall2 (fun e cs => painted tr (face e) cs) es chunks /\
    length vis = length tr /\
    forall i, vis !! i = Some true <->
              vis0 !! i = Some true \/ exists e, In e es /\ lights tr (face e) i.
Proof.
  revert cmds0 vis0. induction es as [|e es IH]; intros cmds0 vis0 Hlen; simpl.
  - intros [= <- <-]. exists []. simpl. rewrite app_nil_r.
    repeat split; auto. intros [H|(e & [] & _)]. exact H.
  - destruct (shade_face tr (cmds0, vis0) e) as [[cmds1 vis1]|] eqn:He; [|discriminate].
    simpl. intros Hrest.
    destruct (shade_step e _ _ _ _ Hlen He) as (cs & -> & Hp & Hlen1 & Hi1).
    destruct (IH _ _ Hlen1 Hrest) as (chunks & -> & Hps & Hlen2 & Hi2).
    exists (cs :: chunks). simpl. rewrite <- app_assoc.
    repeat split; auto. 
    + intros H. apply Hi2 in H as [H|(e' & He' & H)]; [|eauto].
      apply Hi1 in H as [H|H]; eauto.
    + intros H. apply Hi2. destruct H as [H|(e' & [<-|He'] & H)].
      * left. apply Hi1. auto.
      * left. apply Hi1. auto.
      * eauto.
Qed.

(** A vector access of the shading loop stays in bounds once the first
    loop has passed. *)
Lemma shade_loop_fault (es : list (IndexedFace F)) (st : list DrawCmd * list bool)
      (u : fault) :
  length (snd st) = length tr ->
  (forall e, In e es -> valid_face (length tr) (face e) = true) ->
  foldM (shade_face tr) es st = Undefined u -> u = BadCast.
Proof.
  revert st. induction es as [|e es IH]; intros [cmds0 vis0] Hlen Hv; simpl; [discriminate|].
  destruct (shade_face tr (cmds0, vis0) e) as [[cmds1 vis1]|u'] eqn:He; simpl.
  - apply (IH (cmds1, vis1)).
    + simpl. destruct (shade_step e _ _ _ _ Hlen He) as (_ & _ & _ & H & _). exact H.
    + intros e' He'. apply Hv. right. exact He'.
  - intros [= <-]. rewrite shade_face_eq in He.
    assert (Hve : valid_face (length tr) (face e) = true) by (apply Hv; left; reflexivity).
    destruct (proj1 (corners_valid _ _) Hve) as [[[a b] c] Hc]. rewrite Hc in He.
    destruct (degenerate a b c); [discriminate|].
    destruct (to_int _); simpl in He; [|congruence].
    destruct (project a); simpl in He; [|congruence].
    destruct (project b); simpl in He; [|congruence].
    destruct (project c); simpl in He; [|congruence].
    destruct (front_facing a b c); [|discriminate].
    simpl in Hlen. rewrite <- Hlen in Hve.
    destruct (mark_spec (face e) vis0 Hve) as (E1 & E2 & E3 & _).
    rewrite E1 in He. simpl in He. rewrite E2 in He. simpl in He.
    rewrite E3 in He. discriminate.
Qed.

Lemma dots_loop (vis : list bool) (idx : list nat) (cmds0 cmds : list DrawCmd) :
  foldM (draw_dot tr vis) idx cmds0 = Ok cmds ->
  exists ps,
    cmds = cmds0 ++ map dot ps /\
    Forall2 (projects_to tr) (List.filter (shown tr vis) idx) ps.
Proof.
  revert cmds0. induction idx as [|i idx IH]; intros cmds0; simpl.
  - intros [= <-]. exists []. simpl. rewrite app_nil_r. auto.
  - unfold draw_dot at 1. rewrite !at_index_nat. unfold shown at 1.
    destruct (vis !! i) as [[|]|]; simpl; [| |discriminate].
    + destruct (tr !! i) as [v|] eqn:Hv; simpl; [|discriminate].
      destruct (fle (z v) (of_int 0)); simpl; [apply IH|].
      destruct (project v) as [p|] eqn:Hp; simpl; [|discriminate].
      intros H. apply IH in H as (ps & -> & Hps).
      exists (p :: ps). simpl. rewrite <- app_assoc. split; [reflexivity|].
      constructor; [|exact Hps]. exists v. auto.
    + destruct (tr !! i); apply IH.
Qed.

Lemma dots_loop_fault (vis : list bool) (idx : list nat) (cmds0 : list DrawCmd) (u : fault) :
  length vis = length tr ->
  (forall i, In i idx -> (i < length tr)%nat) ->
  foldM (draw_dot tr vis) idx cmds0 = Undefined u -> u = BadCast.
Proof.
  intros Hlen. revert cmds0. induction idx as [|i idx IH]; intros cmds0 Hin; simpl; [discriminate|].
  assert (Hi : (i < length tr)%nat) by (apply Hin; left; reflexivity).
  unfold draw_dot at 1. rewrite !at_index_nat.
  destruct (lookup_lt_is_Some_2 vis i) as [b Hb]; [lia|].
  destruct (lookup_lt_is_Some_2 tr i Hi) as [v Hv]. rewrite Hb, Hv. simpl.
  assert (Hrest : forall i', In i' idx -> (i' < length tr)%nat)
    by (intros i' Hi'; apply Hin; right; exact Hi').
  destruct b; simpl; [|apply IH, Hrest].
  destruct (fle (z v) (of_int 0)); [apply IH, Hrest|].
  destruct (project v); simpl; [apply IH, Hrest|congruence].
Qed.

End ShadingLoop.

(** ** [drawShadedModel] as a whole *)

Section Anatomy.

Context {F : Type} {FA : FloatArith F}.
Variable std_sort : forall A : Type, (A -> A -> bool) -> list A -> list A.
Hypothesis std_sort_ok : sort_contract std_sort.

(** The shape every successful run has: the faces of the sorted vector
    are painted one after the other, then the dots follow. *)
Lemma draw_anatomy (g : Globals F) (cmds : list DrawCmd) :
  let tr := transformed g in
  let sorted := std_sort _ by_avgZ (indexed tr (faces g)) in
  strict_weak_onb by_avgZ (indexed tr (faces g)) = true ->
  drawShadedModel std_sort g = Ok cmds ->
  forallb (valid_face (length tr)) (faces g) = true /\
  Permutation (indexed tr (faces g)) sorted /\
  StronglySorted (fun a b => by_avgZ b a = false) sorted /\
  exists chunks vis ps,
    cmds = concat chunks ++ map dot ps /\
    Forall2 (fun e cs => painted tr (face e) cs) sorted chunks /\
    length vis = length tr /\
    (forall i, vis !! i = Some true <-> exists f, In f (faces g) /\ lights tr f i) /\
    Forall2 (projects_to tr) (List.filter (shown tr vis) (seq 0 (length tr))) ps.
Proof.
  intros tr sorted Hswo. unfold drawShadedModel. fold tr.
  destruct (forallb (valid_face (length tr)) (faces g)) eqn:Hv;
    [|rewrite (first_loop_invalid tr _ _ Hv); discriminate].
  destruct (first_loop_valid tr (faces g) [] Hv) as [-> Hfaces]. simpl.
  fold sorted. destruct (std_sort_ok _ by_avgZ _ Hswo) as [Hperm Hsorted].
  fold sorted in Hperm, Hsorted.
  destruct (foldM (shade_face tr) sorted _) as [[cmds1 vis]|] eqn:Hloop; [|discriminate].
  simpl. intros Hdots.
  apply shade_loop in Hloop as (chunks & -> & Hp & Hlen & Hi);
    [|apply length_replicate].
  apply dots_loop in Hdots as (ps & -> & Hps).
  repeat split; auto.
  exists chunks, vis, ps. repeat split; auto.
  - intros H. apply Hi in H as [H|(e & He & H)].
    + apply lookup_replicate in H as [[=] _].
    + apply (Permutation_in _ (Permutation_sym Hperm)) in He.
      apply indexed_entry in He as [He _]. eauto.
  - intros (f & Hf & H). apply Hi. right.
    destruct H as (a & b & c & Hc & Hrest).
    exists (mkIndexedFace f (mean_z a b c)). split.
    + apply (Permutation_in _ Hperm). unfold indexed. apply in_flat_map.
      exists f. split; [exact Hf|]. rewrite Hc. left. reflexivity.
    + exists a, b, c. auto.
Qed.

(** A run that reaches the loops at all performs every vector access
    in bounds. *)
Lemma draw_in_bounds (g : Globals F) :
  let tr := transformed g in
  strict_weak_onb by_avgZ (indexed tr (faces g)) = true ->
  forallb (valid_face (length tr)) (faces g) = true ->
  drawShadedModel std_sort g <> Undefined OutOfBounds.
Proof.
  intros tr Hswo Hv. unfold drawShadedModel. fold tr.
  destruct (first_loop_valid tr (faces g) [] Hv) as [-> Hfaces]. simpl.
  destruct (std_sort_ok _ by_avgZ _ Hswo) as [Hperm _].
  destruct (foldM (shade_face tr) _ _) as [[cmds1 vis]|u] eqn:Hloop; simpl.
  - intros Hdots. apply dots_loop_fault in Hdots; [discriminate| |].
    + apply shade_loop in Hloop as (_ & _ & _ & H & _); [exact H|apply length_replicate].
    + intros i Hi. apply in_seq in Hi. lia.
  - intros [= ->]. apply shade_loop_fault in Hloop; [discriminate|apply length_replicate|].
    intros e He. apply (Permutation_in _ (Permutation_sym Hperm)) in He.
    apply indexed_entry in He as (_ & a & b & c & Hc & _).
    apply corners_valid. eauto.
Qed.

End Anatomy.

(** ** Painter's order (C4) *)

Section ListFacts.

Context {A : Type}.

Lemma Permutation_list_filter (p : A -> bool) (l l' : list A) :
  Permutation l l' -> Permutation (List.filter p l) (List.filter p l').
Proof.
  induction 1 as [|a l l' _ IH|a b l|l l' l'' _ IH1 _ IH2]; simpl.
  - constructor.
  - destruct (p a); [apply perm_skip|]; exact IH.
  - destruct (p a), (p b); try reflexivity. apply perm_swap.
  - etransitivity; eassumption.
Qed.

Lemma StronglySorted_list_filter (R : A -> A -> Prop) (p : A -> bool) (l : list A) :
  StronglySorted R l -> StronglySorted R (List.filter p l).
Proof.
  induction 1 as [|a l Hs IH Ha]; simpl; [constructor|].
  destruct (p a); [|exact IH]. constructor; [exact IH|].
  rewrite List.Forall_forall in Ha |- *. intros b Hb.
  apply filter_In in Hb as [Hb _]. apply Ha, Hb.
Qed.

Lemma list_filter_map {B : Type} (f : A -> B) (p : B -> bool) (l : list A) :
  List.filter p (map f l) = map f (List.filter (fun a => p (f a)) l).
Proof.
  induction l as [|a l IH]; simpl; [reflexivity|].
  destruct (p (f a)); simpl; rewrite IH; reflexivity.
Qed.

End ListFacts.

Section PainterOrder.

Context {F : Type} {FA : FloatArith F}.

Lemma polygons_of_dots (ps : list POINT) : List.filter is_polygon (map dot ps) = [].
Proof. induction ps as [|p ps IH]; simpl; [reflexivity|exact IH]. Qed.

Lemma ellipses_of_dots (ps : list POINT) : List.filter is_ellipse (map dot ps) = map dot ps.
Proof. induction ps as [|p ps IH]; simpl; [reflexivity|rewrite IH; reflexivity]. Qed.

Lemma painted_ellipses (tr : list (Vertex F)) (f : Face) (cs : list DrawCmd) :
  painted tr f cs -> List.filter is_ellipse cs = [].
Proof.
  intros (a & b & c & _ & H). destruct (degenerate a b c).
  - subst cs. reflexivity.
  - destruct H as (blue & p1 & p2 & p3 & _ & _ & _ & _ & ->). reflexivity.
Qed.

Lemma painted_skipped (tr : list (Vertex F)) (f : Face) (cs : list DrawCmd) :
  painted tr f cs ->
  if skipped tr f then cs = []
  else exists cmd, List.filter is_polygon cs = [cmd] /\ head cs = Some cmd.
Proof.
  intros (a & b & c & Hc & H). unfold skipped. rewrite Hc.
  destruct (degenerate a b c); [exact H|].
  destruct H as (blue & p1 & p2 & p3 & _ & _ & _ & _ & ->).
  eexists. split; reflexivity.
Qed.

Lemma polygons_of_chunks (tr : list (Vertex F)) (es : list (IndexedFace F))
      (chunks : list (list DrawCmd)) :
  Forall2 (fun e cs => painted tr (face e) cs) es chunks ->
  Forall2 (fun e cmd => fill_of tr (face e) cmd)
          (List.filter (fun e => negb (skipped tr (face e))) es)
          (List.filter is_polygon (concat chunks)).
Proof.
  induction 1 as [|e cs es chunks Hp _ IH]; simpl; [constructor|].
  rewrite List.filter_app. pose proof (painted_skipped _ _ _ Hp) as Hs.
  destruct (skipped tr (face e)); simpl.
  - subst cs. exact IH.
  - destruct Hs as (cmd & -> & Hhd). simpl. constructor; [|exact IH].
    exists cs. auto.
Qed.

Lemma ellipses_of_chunks (tr : list (Vertex F)) (es : list (IndexedFace F))
      (chunks : list (list DrawCmd)) :
  Forall2 (fun e cs => painted tr (face e) cs) es chunks ->
  List.filter is_ellipse (concat chunks) = [].
Proof.
  induction 1 as [|e cs es chunks Hp _ IH]; simpl; [reflexivity|].
  rewrite List.filter_app, IH, (painted_ellipses _ _ _ Hp). reflexivity.
Qed.

(** C4, as the code has it.  Under the contract of [std::sort], and
    when the depth keys are strictly weakly ordered by [<] (no NaN
    among them), every successful run emits its filled triangles in
    painter's order: one [Polygon] per face that is not skipped, keyed
    by the mean of the three transformed Z, no key smaller than an
    earlier one.  Nothing is said about the order of equal keys. *)
Theorem C4_back_to_front
        (std_sort : forall A : Type, (A -> A -> bool) -> list A -> list A)
        (g : Globals F) (cmds : list DrawCmd) :
  sort_contract std_sort ->
  strict_weak_onb by_avgZ (indexed (transformed g) (faces g)) = true ->
  drawShadedModel std_sort g = Ok cmds ->
  back_to_front (transformed g) (faces g) cmds.
Proof.
  intros Hsort Hswo Hrun.
  destruct (draw_anatomy std_sort Hsort g cmds Hswo Hrun)
    as (Hv & Hperm & Hsorted & chunks & vis & ps & -> & Hp & _ & _ & _).
  set (tr := transformed g) in *.
  set (sorted := std_sort _ by_avgZ (indexed tr (faces g))) in *.
  exists (List.filter (fun e => negb (skipped tr (face e))) sorted).
  repeat split.
  - rewrite <- (list_filter_map face (fun f => negb (skipped tr f))).
    apply Permutation_list_filter.
    transitivity (map face (indexed tr (faces g))).
    + apply Permutation_map, Permutation_sym, Hperm.
    + rewrite (proj2 (first_loop_valid tr (faces g) [] Hv)). reflexivity.
  - apply List.Forall_forall. intros e He. apply filter_In in He as [He _].
    apply (Permutation_in _ (Permutation_sym Hperm)) in He.
    apply indexed_entry in He as [_ He]. exact He.
  - apply StronglySorted_list_filter. exact Hsorted.
  - rewrite List.filter_app, polygons_of_dots, app_nil_r.
    apply polygons_of_chunks, Hp.
Qed.

End PainterOrder.

Lemma C4_back_to_front_witness :
  back_to_front (FA := b32) (transformed tetra) (faces tetra) tetra_cmds.
Proof.
  apply (C4_back_to_front (FA := b32) insertion_sort tetra tetra_cmds).
  - exact insertion_sort_contract.
  - vm_compute. reflexivity.
  - vm_compute. reflexivity.
Defined.

(** The sort of GCC's standard library on some vectors: it sorts, and
    it leaves a vector of sixteen equal keys as it is but not one of
    twenty. *)
Example gnu_sort_sorts :
  gnu_sort Z Z.ltb [81; 33; 69; 61; 56; 93; 77; 0; 65; 25; 72; 14; 14; 48; 33; 32; 73; 63;
                    71; 87; 5; 8; 54; 24; 22; 71; 51; 45; 55; 89; 29; 78; 87; 65; 32; 67;
                    53; 10; 27; 83]
  = [0; 5; 8; 10; 14; 14; 22; 24; 25; 27; 29; 32; 32; 33; 33; 45; 48; 51; 53; 54; 55; 56;
     61; 63; 65; 65; 67; 69; 71; 71; 72; 73; 77; 78; 81; 83; 87; 87; 89; 93] /\
  Gnu.partial_sort Z.ltb [81; 33; 69; 61; 56; 93; 77; 0; 65; 25; 72; 14; 14; 48; 33] 0 15
  = [0; 14; 14; 25; 33; 33; 48; 56; 61; 65; 69; 72; 77; 81; 93] /\
  map snd (gnu_sort _ (fun a b => fst a <? fst b) (map (fun i => (0, i)) (seq 0 16)))
  = seq 0 16 /\
  map snd (gnu_sort _ (fun a b => fst a <? fst b) (map (fun i => (0, i)) (seq 0 20)))
  = [10; 19; 18; 17; 16; 15; 14; 13; 12; 11; 0; 9; 8; 7; 6; 5; 4; 3; 2; 1]%nat.
Proof. vm_compute. auto. Qed.

(** Twenty faces with equal depth keys are not painted in the order in
    which they were loaded.  On the strip [flat_strip], viewed under
    the angles 0, every key is 0; the [std::sort] of GCC's standard
    library exchanges the first entry with the middle one and then
    entries from both ends, and the faces are painted in the order
    11, 20, 19, ..., 12, 1, 10, 9, ..., 2: face 11 first, face 1
    eleventh, and the two are different triangles.  (Two faces with
    equal keys, as in [flat_pair], are painted in load order by that
    sort.) *)
Lemma C4_ties_not_kept :
  let g := applyTransform (FA := b32) flat_strip in
  let tr := transformed g in
  let fs := faces g in
  let painted_order :=
    [11; 20; 19; 18; 17; 16; 15; 14; 13; 12; 1; 10; 9; 8; 7; 6; 5; 4; 3; 2] in
  fs = map (fun k => mkFace k (k + 1) (k + 2)) (map Z.of_nat (seq 1 20)) /\
  map avgZ (indexed (FA := b32) tr fs) = replicate 20 (S754_zero false) /\
  (exists cmds,
      drawShadedModel (FA := b32) gnu_sort g = Ok cmds /\
      map polygon_points (List.filter is_polygon cmds)
      = map (fun k => fill_points (FA := b32) tr (mkFace k (k + 1) (k + 2))) painted_order) /\
  fill_points (FA := b32) tr (mkFace 11 12 13)
  = Some (mkPOINT 388 311, mkPOINT 411 288, mkPOINT 434 311) /\
  fill_points (FA := b32) tr (mkFace 1 2 3)
  = Some (mkPOINT 160 311, mkPOINT 183 288, mkPOINT 205 311) /\
  List.filter is_polygon
    (match drawShadedModel (FA := b32) gnu_sort flat_pair with
     | Ok cmds => cmds
     | Undefined _ => []
     end)
  = [Polygon (mkPOINT 400 300) (mkPOINT 640 300) (mkPOINT 400 60) (RGB 0 0 255);
     Polygon (mkPOINT 160 300) (mkPOINT 400 300) (mkPOINT 160 540) (RGB 0 0 255)].
Proof.
  cbv zeta. split; [vm_compute; reflexivity|]. split; [vm_compute; reflexivity|].
  split.
  - eexists. split; [vm_compute; reflexivity|]. vm_compute. reflexivity.
  - vm_compute. auto.
Qed.

(** ** Degenerate faces (C5) *)

Section Degenerate.

Context {F : Type} {FA : FloatArith F}.

Lemma skipped_step (tr : list (Vertex F)) (st : list DrawCmd * list bool)
      (e : IndexedFace F) :
  skipped tr (face e) = true -> shade_face tr st e = Ok st.
Proof.
  unfold skipped. rewrite shade_face_eq.
  destruct (corners tr (face e)) as [[[a b] c]|u]; [|discriminate].
  intros ->. reflexivity.
Qed.

Lemma skipped_dropped (tr : list (Vertex F)) (es : list (IndexedFace F))
      (st : list DrawCmd * list bool) :
  foldM (shade_face tr) es st =
  foldM (shade_face tr) (List.filter (fun e => negb (skipped tr (face e))) es) st.
Proof.
  revert st. induction es as [|e es IH]; intros st; simpl; [reflexivity|].
  destruct (skipped tr (face e)) eqn:Hs; simpl.
  - rewrite (skipped_step _ _ _ Hs). simpl. apply IH.
  - destruct (shade_face tr st e); simpl; [apply IH|reflexivity].
Qed.

(** C5.  A face whose cross product is shorter than [1e-6f] is skipped
    entirely: its iteration returns the command stream and the
    visibility flags as they were and raises nothing; deleting it from
    the faces the loop runs over changes no run; and a whole run of
    [drawShadedModel] is the run of the loop over the faces that are
    not skipped. *)
Theorem C5_degenerate_skipped
        (std_sort : forall A : Type, (A -> A -> bool) -> list A -> list A)
        (g : Globals F) (tr : list (Vertex F))
        (es1 es2 : list (IndexedFace F)) (e : IndexedFace F)
        (a b c : Vertex F) (st : list DrawCmd * list bool) :
  corners tr (face e) = Ok (a, b, c) ->
  flt (norm3 (cross a b c)) (fdec 1 (-6)) = true ->
  shade_face tr st e = Ok st /\
  foldM (shade_face tr) (es1 ++ e :: es2) st = foldM (shade_face tr) (es1 ++ es2) st /\
  drawShadedModel std_sort g =
  (sortedFaces <- foldM (push_indexed (transformed g)) (faces g) [] ;;
   st' <- foldM (shade_face (transformed g))
                (List.filter (fun e' => negb (skipped (transformed g) (face e')))
                             (std_sort _ by_avgZ sortedFaces))
                ([], replicate (length (transformed g)) false) ;;
   foldM (draw_dot (transformed g) (snd st')) (seq 0 (length (transformed g))) (fst st')).
Proof.
  intros Hc Hd.
  assert (Hs : skipped tr (face e) = true) by (unfold skipped; rewrite Hc; exact Hd).
  split; [apply skipped_step, Hs|]. split.
  - rewrite !foldM_app. destruct (foldM (shade_face tr) es1 st) as [st1|]; simpl; [|reflexivity].
    rewrite (skipped_step _ _ _ Hs). reflexivity.
  - unfold drawShadedModel.
    destruct (foldM (push_indexed (transformed g)) (faces g) []) as [es|]; simpl; [|reflexivity].
    rewrite <- skipped_dropped. reflexivity.
Qed.

End Degenerate.

Lemma C5_degenerate_skipped_witness :
  let e := mkIndexedFace (mkFace 1 1 2) (B32.of_Z (-1)) in
  let st := ([MoveToEx (mkPOINT 0 0)], [true; false; false; false]) in
  corners (transformed tetra) (face e)
  = Ok (vtx 1 (-1) (-1) (-1), vtx 1 (-1) (-1) (-1), vtx 2 1 (-1) (-1)) /\
  shade_face (FA := b32) (transformed tetra) st e = Ok st.
Proof.
  split; [reflexivity|].
  apply (C5_degenerate_skipped (FA := b32) insertion_sort tetra (transformed tetra) [] []
           (mkIndexedFace (mkFace 1 1 2) (B32.of_Z (-1)))
           (vtx 1 (-1) (-1) (-1)) (vtx 1 (-1) (-1) (-1)) (vtx 2 1 (-1) (-1))).
  - reflexivity.
  - vm_compute. reflexivity.
Defined.

(** ** Shading (C2) *)

Lemma BYTE_mod (n : Z) : BYTE n = n mod 256.
Proof. unfold BYTE. change 255 with (Z.ones 8). rewrite Z.land_ones by lia. reflexivity. Qed.

Lemma RGB_blue_only (blue : Z) :
  GetRValue (RGB 0 0 blue) = 0 /\
  GetGValue (RGB 0 0 blue) = 0 /\
  GetBValue (RGB 0 0 blue) = BYTE blue.
Proof.
  unfold GetRValue, GetGValue, GetBValue, RGB.
  change (BYTE 0) with 0. change (Z.shiftl 0 8) with 0. change (Z.lor 0 0) with 0.
  rewrite Z.lor_0_l, !BYTE_mod, !Z.shiftr_div_pow2, Z.shiftl_mul_pow2 by lia.
  pose proof (Z.mod_pos_bound blue 256 ltac:(lia)) as Hb.
  set (k := blue mod 256) in *.
  change (2 ^ 16) with 65536. change (2 ^ 8) with 256.
  split; [|split].
  - replace (k * 65536) with ((k * 256) * 256) by lia. apply Z_mod_mult.
  - replace (k * 65536) with ((k * 256) * 256) by lia. rewrite Z_div_mult by lia.
    apply Z_mod_mult.
  - rewrite Z_div_mult by lia. apply Z.mod_small. exact Hb.
Qed.

Section Shading.

Context {F : Type} {FA : FloatArith F}.

Lemma fill_in_chunks (tr : list (Vertex F)) (es : list (IndexedFace F))
      (chunks : list (list DrawCmd)) (e : IndexedFace F) :
  Forall2 (fun e cs => painted tr (face e) cs) es chunks ->
  In e es -> exists cs, painted tr (face e) cs /\ incl cs (concat chunks).
Proof.
  induction 1 as [|e' cs es chunks Hp _ IH]; simpl; [intros []|].
  intros [<-|He].
  - exists cs. split; [exact Hp|]. apply incl_appl, incl_refl.
  - destruct (IH He) as (cs' & Hp' & Hi). exists cs'. split; [exact Hp'|].
    apply incl_appr, Hi.
Qed.

Lemma chunk_of_polygon (tr : list (Vertex F)) (es : list (IndexedFace F))
      (chunks : list (list DrawCmd)) (cmd : DrawCmd) :
  Forall2 (fun e cs => painted tr (face e) cs) es chunks ->
  In cmd (concat chunks) -> is_polygon cmd = true ->
  exists e, In e es /\ skipped tr (face e) = false /\ fill_of tr (face e) cmd.
Proof.
  induction 1 as [|e cs es chunks Hp _ IH]; simpl; [intros []|].
  rewrite in_app_iff. intros [Hin|Hin] Hpoly.
  - exists e. split; [left; reflexivity|].
    pose proof (painted_skipped _ _ _ Hp) as Hs.
    destruct (skipped tr (face e)); [subst cs; destruct Hin|].
    split; [reflexivity|]. destruct Hs as (cmd' & Hf & Hhd).
    assert (In cmd (List.filter is_polygon cs)) as Hin' by (apply filter_In; auto).
    rewrite Hf in Hin'. destruct Hin' as [<-|[]]. exists cs. auto.
  - destruct (IH Hin Hpoly) as (e' & He' & H). exists e'. split; [right; exact He'|exact H].
Qed.

(** The loop body computes the normal of the claim. *)
Lemma normal_of_loop (a b c : Vertex F) :
  cross a b c = face_normal a b c /\
  norm3 (cross a b c) = vec_length (face_normal a b c) /\
  (degenerate a b c = false <-> non_degenerate a b c) /\
  intensity a b c = shading_intensity a b c.
Proof. repeat split; intros H; exact H. Qed.

Lemma shading_spec
      (std_sort : forall A : Type, (A -> A -> bool) -> list A -> list A)
      (g : Globals F) (cmds : list DrawCmd) :
  sort_contract std_sort ->
  strict_weak_onb by_avgZ (indexed (transformed g) (faces g)) = true ->
  drawShadedModel std_sort g = Ok cmds ->
  shaded_by_normal (transformed g) (faces g) cmds.
Proof.
  intros Hsort Hswo Hrun.
  destruct (draw_anatomy std_sort Hsort g cmds Hswo Hrun)
    as (Hv & Hperm & _ & chunks & vis & ps & -> & Hp & _ & _ & _).
  set (tr := transformed g) in *. split.
  - intros f a b c Hf Hc Hd.
    destruct (normal_of_loop a b c) as (_ & _ & Hdeg & Hint).
    apply Hdeg in Hd.
    assert (He : In (mkIndexedFace f (mean_z a b c)) (indexed tr (faces g))).
    { unfold indexed. apply in_flat_map. exists f. split; [exact Hf|].
      rewrite Hc. left. reflexivity. }
    apply (Permutation_in _ Hperm) in He.
    destruct (fill_in_chunks _ _ _ _ Hp He) as (cs & (a' & b' & c' & Hc' & Hcs) & Hincl).
    simpl in Hc'. rewrite Hc in Hc'. injection Hc' as <- <- <-. rewrite Hd in Hcs.
    destruct Hcs as (blue & p1 & p2 & p3 & Hb & H1 & H2 & H3 & ->).
    exists blue, p1, p2, p3.
    split; [unfold blue_channel; rewrite <- Hint; exact Hb|].
    do 3 (split; [assumption|]).
    split; [|apply RGB_blue_only].
    apply in_or_app. left. apply Hincl. left. reflexivity.
  - intros cmd Hin Hpoly. apply in_app_or in Hin as [Hin|Hin].
    + destruct (chunk_of_polygon _ _ _ _ Hp Hin Hpoly) as (e & He & Hs & Hfill).
      apply (Permutation_in _ (Permutation_sym Hperm)) in He.
      apply indexed_entry in He as [He _].
      destruct Hfill as (cs & (a & b & c & Hc & Hcs) & Hhd).
      unfold skipped in Hs. rewrite Hc in Hs. rewrite Hs in Hcs.
      destruct Hcs as (blue & p1 & p2 & p3 & Hb & H1 & H2 & H3 & ->).
      injection Hhd as <-.
      destruct (normal_of_loop a b c) as (_ & _ & Hdeg & Hint).
      exists (face e), a, b, c, blue, p1, p2, p3.
      split; [exact He|]. split; [exact Hc|]. split; [apply Hdeg, Hs|].
      split; [unfold blue_channel; rewrite <- Hint; exact Hb|]. auto.
    + apply in_map_iff in Hin as (p & <- & _). discriminate.
Qed.

End Shading.

(** ** binary32: NaN and the comparisons with zero *)

Module B32Facts.

Import B32.

Lemma sub_nan_l (b : spec_float) : sub S754_nan b = S754_nan.
Proof. destruct b; reflexivity. Qed.
Lemma sub_nan_r (a : spec_float) : sub a S754_nan = S754_nan.
Proof. destruct a; reflexivity. Qed.
Lemma add_nan_l (b : spec_float) : add S754_nan b = S754_nan.
Proof. destruct b; reflexivity. Qed.
Lemma add_nan_r (a : spec_float) : add a S754_nan = S754_nan.
Proof. destruct a; reflexivity. Qed.
Lemma mul_nan_l (b : spec_float) : mul S754_nan b = S754_nan.
Proof. destruct b; reflexivity. Qed.
Lemma mul_nan_r (a : spec_float) : mul a S754_nan = S754_nan.
Proof. destruct a; reflexivity. Qed.
Lemma div_nan_l (b : spec_float) : div S754_nan b = S754_nan.
Proof. destruct b; reflexivity. Qed.
Lemma div_nan_r (a : spec_float) : div a S754_nan = S754_nan.
Proof. destruct a; reflexivity. Qed.
Lemma sqrt_nan : sqrt S754_nan = S754_nan.
Proof. reflexivity. Qed.
Lemma ltb_nan_r (a : spec_float) : SFltb a S754_nan = false.
Proof. destruct a; reflexivity. Qed.

(** Away from NaN, "not [z <= 0]" and "[0 < z]" are the same test. *)
Lemma not_le_zero (a : spec_float) :
  is_nan a = false -> negb (SFleb a (of_Z 0)) = SFltb (of_Z 0) a.
Proof. destruct a as [s|s| |s m e]; try destruct s; try reflexivity; discriminate. Qed.

(** Values that are neither zero nor finite absorb the operations
    of the rotations. *)
Lemma div_by_zero (a : spec_float) (s : bool) : is_finite (div a (S754_zero s)) = false.
Proof. destruct a; reflexivity. Qed.
Lemma mul_not_finite (a b : spec_float) :
  is_finite a = false -> is_finite (mul a b) = false.
Proof. destruct a, b; try reflexivity; discriminate. Qed.
Lemma add_not_finite_l (a b : spec_float) :
  is_finite a = false -> is_finite (add a b) = false.
Proof.
  destruct a as [| sa | |], b as [| sb | |]; try reflexivity; try discriminate.
  destruct sa, sb; reflexivity.
Qed.
Lemma add_not_finite_r (a b : spec_float) :
  is_finite b = false -> is_finite (add a b) = false.
Proof.
  destruct a as [| sa | |], b as [| sb | |]; try reflexivity; try discriminate.
  destruct sa, sb; reflexivity.
Qed.
Lemma sub_not_finite_l (a b : spec_float) :
  is_finite a = false -> is_finite (sub a b) = false.
Proof.
  destruct a as [| sa | |], b as [| sb | |]; try reflexivity; try discriminate.
  destruct sa, sb; reflexivity.
Qed.
Lemma opp_not_finite (a : spec_float) :
  is_finite a = false -> is_finite (SFopp a) = false.
Proof. destruct a; try reflexivity; discriminate. Qed.

End B32Facts.

Create Rewrite HintDb nan.
#[export] Hint Rewrite B32Facts.sub_nan_l B32Facts.sub_nan_r B32Facts.add_nan_l
  B32Facts.add_nan_r B32Facts.mul_nan_l B32Facts.mul_nan_r B32Facts.div_nan_l
  B32Facts.div_nan_r B32Facts.sqrt_nan B32Facts.ltb_nan_r : nan.

(** *** The order of binary32 *)

Lemma key_compare (a b : spec_float) :
  B32.is_nan a = false -> B32.is_nan b = false ->
  SFcompare a b = Some (lex_compare (B32.key a) (B32.key b)).
Proof.
  destruct a as [sa|sa| |sa ma ea], b as [sb|sb| |sb mb eb]; try discriminate;
    intros _ _; try destruct sa; try destruct sb; try reflexivity.
  simpl. rewrite Z.compare_opp, (Z.compare_antisym ea eb).
  destruct (ea ?= eb); reflexivity.
Qed.

Lemma lex_compare_spec (a b : Z * Z * Z) :
  match lex_compare a b with
  | Lt => lex_lt a b
  | Eq => a = b
  | Gt => lex_lt b a
  end.
Proof.
  destruct a as [[s1 e1] m1], b as [[s2 e2] m2]. unfold lex_compare, lex_lt.
  destruct (Z.compare_spec s1 s2); [|lia|lia].
  destruct (Z.compare_spec e1 e2); [|lia|lia].
  destruct (Z.compare_spec m1 m2); [congruence|lia|lia].
Qed.

Lemma lex_lt_irrefl (a : Z * Z * Z) : ~ lex_lt a a.
Proof. destruct a as [[s e] m]. unfold lex_lt. lia. Qed.

Lemma lex_lt_trans (a b c : Z * Z * Z) : lex_lt a b -> lex_lt b c -> lex_lt a c.
Proof.
  destruct a as [[s1 e1] m1], b as [[s2 e2] m2], c as [[s3 e3] m3]. unfold lex_lt. lia.
Qed.

Lemma ltb_lex (a b : spec_float) :
  B32.is_nan a = false -> B32.is_nan b = false ->
  (SFltb a b = true <-> lex_lt (B32.key a) (B32.key b)) /\
  (incomparable SFltb a b = true <-> B32.key a = B32.key b).
Proof.
  intros Ha Hb. unfold incomparable, SFltb.
  rewrite (key_compare a b Ha Hb), (key_compare b a Hb Ha).
  set (ka := B32.key a). set (kb := B32.key b). clearbody ka kb.
  pose proof (lex_compare_spec ka kb) as H1.
  pose proof (lex_compare_spec kb ka) as H2.
  assert (Hn : forall k k', lex_lt k k' -> lex_lt k' k -> False)
    by (intros k k' X Y; exact (lex_lt_irrefl _ (lex_lt_trans _ _ _ X Y))).
  destruct (lex_compare ka kb), (lex_compare kb ka); simpl;
    try (exfalso;
         first [ apply (Hn _ _ H1 H2)
               | rewrite H1 in H2; apply (lex_lt_irrefl _ H2)
               | rewrite H2 in H1; apply (lex_lt_irrefl _ H1) ]);
    split; split; intros H; try discriminate; try reflexivity; try assumption;
    exfalso;
    first [ apply (Hn _ _ H H1)
          | rewrite H in H1; apply (lex_lt_irrefl _ H1)
          | rewrite H1 in H; apply (lex_lt_irrefl _ H) ].
Qed.

(** X2.  When no depth key is NaN, the comparison [a.avgZ < b.avgZ]
    handed to [std::sort] is a strict weak ordering of the entries, as
    [std::sort] requires. *)
Theorem X2_by_avgZ_strict_weak (m : libm) (es : list (IndexedFace spec_float)) :
  forallb (fun e => negb (B32.is_nan (avgZ e))) es = true ->
  strict_weak_onb (by_avgZ (FA := binary32_arith m)) es = true.
Proof.
  rewrite forallb_forall. intros Hn.
  assert (Hnan : forall e, In e es -> B32.is_nan (avgZ e) = false).
  { intros e He. apply negb_true_iff, Hn, He. }
  unfold strict_weak_onb. apply andb_true_iff. split; apply forallb_forall; intros a Ha.
  - apply negb_true_iff. unfold by_avgZ. simpl.
    destruct (SFltb (avgZ a) (avgZ a)) eqn:E; [|reflexivity].
    apply (ltb_lex _ _ (Hnan a Ha) (Hnan a Ha)) in E. destruct (lex_lt_irrefl _ E).
  - apply forallb_forall. intros b Hb. apply forallb_forall. intros c Hc.
    pose proof (ltb_lex _ _ (Hnan a Ha) (Hnan b Hb)) as [Lab Iab].
    pose proof (ltb_lex _ _ (Hnan b Hb) (Hnan c Hc)) as [Lbc Ibc].
    pose proof (ltb_lex _ _ (Hnan a Ha) (Hnan c Hc)) as [Lac Iac].
    change (incomparable by_avgZ a b) with (incomparable SFltb (avgZ a) (avgZ b)).
    change (incomparable by_avgZ b c) with (incomparable SFltb (avgZ b) (avgZ c)).
    change (incomparable by_avgZ a c) with (incomparable SFltb (avgZ a) (avgZ c)).
    change (by_avgZ a b) with (SFltb (avgZ a) (avgZ b)).
    change (by_avgZ b c) with (SFltb (avgZ b) (avgZ c)).
    change (by_avgZ a c) with (SFltb (avgZ a) (avgZ c)).
    apply andb_true_iff. split.
    + destruct (SFltb (avgZ a) (avgZ b)); [|reflexivity].
      destruct (SFltb (avgZ b) (avgZ c)); [|reflexivity]. simpl.
      apply Lac. apply (lex_lt_trans _ (B32.key (avgZ b))); [apply Lab|apply Lbc]; reflexivity.
    + destruct (incomparable SFltb (avgZ a) (avgZ b)); [|reflexivity].
      destruct (incomparable SFltb (avgZ b) (avgZ c)); [|reflexivity]. simpl.
      apply Iac. transitivity (B32.key (avgZ b)); [apply Iab|apply Ibc]; reflexivity.
Qed.

Lemma X2_by_avgZ_strict_weak_witness :
  strict_weak_onb (by_avgZ (FA := b32)) (indexed (FA := b32) (transformed tetra) (faces tetra))
  = true.
Proof.
  apply (X2_by_avgZ_strict_weak Poly.m). vm_compute. reflexivity.
Defined.

(** X1.  In binary32 the scale [min(WIDTH, HEIGHT) * 0.4f] is exactly
    240: [project] maps a vertex to [400 + x * 240] and [300 - y * 240],
    each computed in single precision and truncated toward zero. *)
Theorem X1_project_scale (m : libm) (v : Vertex spec_float) :
  project (FA := binary32_arith m) v =
  match B32.to_Z (B32.add (B32.of_Z 400) (B32.mul (x v) (B32.of_Z 240))),
        B32.to_Z (B32.sub (B32.of_Z 300) (B32.mul (y v) (B32.of_Z 240))) with
  | Some px, Some py => Some (mkPOINT px py)
  | _, _ => None
  end.
Proof. reflexivity. Qed.

Section Binary32Shading.

Variable m : libm.
Local Instance b32m : FloatArith spec_float := binary32_arith m.

(** A NaN among the three Z coordinates makes the unit normal NaN, and
    NaN is not above zero. *)
Lemma front_facing_z (a b c : Vertex spec_float) :
  front_facing a b c = true ->
  B32.is_nan (z a) = false /\ B32.is_nan (z b) = false /\ B32.is_nan (z c) = false.
Proof.
  unfold front_facing, unit_nz, norm3, cross. simpl.
  fold B32.sub B32.mul B32.add B32.div B32.sqrt.
  intros H. repeat split.
  - destruct (z a); try reflexivity. exfalso. revert H.
    autorewrite with nan. discriminate.
  - destruct (z b); try reflexivity. exfalso. revert H.
    autorewrite with nan. discriminate.
  - destruct (z c); try reflexivity. exfalso. revert H.
    autorewrite with nan. discriminate.
Qed.

Lemma lights_z (tr : list (Vertex spec_float)) (f : Face) (i : nat) (v : Vertex spec_float) :
  lights tr f i -> tr !! i = Some v -> B32.is_nan (z v) = false.
Proof.
  intros (a & b & c & Hc & _ & Hf & Hi) Hv.
  apply corners_lookup in Hc as (Ha & Hb & Hc & ? & ? & ?).
  apply front_facing_z in Hf as (Hza & Hzb & Hzc).
  destruct Hi as [Hi|[Hi|Hi]]; rewrite <- Hi, Nat2Z.id in *; congruence.
Qed.

(** [std::sort] leaves a range of one element as it is. *)
Lemma sort_one
      (std_sort : forall A : Type, (A -> A -> bool) -> list A -> list A)
      {A : Type} (lt : A -> A -> bool) (a : A) :
  sort_contract std_sort -> lt a a = false -> std_sort A lt [a] = [a].
Proof.
  intros Hsort Ha. destruct (Hsort A lt [a]) as [Hperm _].
  - unfold strict_weak_onb, incomparable. cbn [forallb]. rewrite Ha. reflexivity.
  - apply Permutation_length_1_inv in Hperm. exact Hperm.
Qed.

(** C2.  In a successful run every non-degenerate face is filled with
    the colour [RGB(0, 0, blue)], where [blue] is
    [0x5F + intensity * (0xFF - 0x5F)] converted to [int] and
    [intensity] is the absolute value of the Z component of the unit
    normal [normalize ((v2 - v1) x (v3 - v1))]; red and green are 0,
    and no other triangle is filled.  For the triangle (0,0,0),
    (1,0,0), (0,1,0) the normal is (0,0,1), the intensity 1.0 and the
    blue channel 0xFF, and the run paints that triangle with
    [RGB(0, 0, 0xFF)]. *)
Theorem C2_shading
        (std_sort : forall A : Type, (A -> A -> bool) -> list A -> list A)
        (g : Globals spec_float) (cmds : list DrawCmd) :
  sort_contract std_sort ->
  strict_weak_onb by_avgZ (indexed (transformed g) (faces g)) = true ->
  drawShadedModel std_sort g = Ok cmds ->
  shaded_by_normal (transformed g) (faces g) cmds /\
  (let a := vtx 1 0 0 0 in
   let b := vtx 2 1 0 0 in
   let c := vtx 3 0 1 0 in
   vec_sub b a = (B32.of_Z 1, B32.of_Z 0, B32.of_Z 0) /\
   vec_sub c a = (B32.of_Z 0, B32.of_Z 1, B32.of_Z 0) /\
   face_normal a b c = (B32.of_Z 0, B32.of_Z 0, B32.of_Z 1) /\
   unit_normal a b c = (B32.of_Z 0, B32.of_Z 0, B32.of_Z 1) /\
   non_degenerate a b c /\
   shading_intensity a b c = B32.of_Z 1 /\
   blue_channel a b c = Some 0xFF /\
   GetBValue (RGB 0 0 0xFF) = 0xFF /\
   drawShadedModel std_sort
                   (mkGlobals [] [mkFace 1 2 3] [a; b; c] (B32.of_Z 0) (B32.of_Z 0))
   = Ok [Polygon (mkPOINT 400 300) (mkPOINT 640 300) (mkPOINT 400 60) (RGB 0 0 0xFF);
         MoveToEx (mkPOINT 400 300); LineTo (mkPOINT 640 300) (RGB 0 0 0);
         LineTo (mkPOINT 400 60) (RGB 0 0 0); LineTo (mkPOINT 400 300) (RGB 0 0 0)]).
Proof.
  intros Hsort Hswo Hrun. split.
  - apply (shading_spec std_sort g cmds Hsort Hswo Hrun).
  - cbv zeta. do 8 (split; [vm_compute; reflexivity|]).
    unfold drawShadedModel. cbn [transformed faces foldM].
    unfold push_indexed at 1. cbn [v1 v2 v3]. 
    change (at_index [vtx 1 0 0 0; vtx 2 1 0 0; vtx 3 0 1 0] (1 - 1)) with (Ok (vtx 1 0 0 0)).
    change (at_index [vtx 1 0 0 0; vtx 2 1 0 0; vtx 3 0 1 0] (2 - 1)) with (Ok (vtx 2 1 0 0)).
    change (at_index [vtx 1 0 0 0; vtx 2 1 0 0; vtx 3 0 1 0] (3 - 1)) with (Ok (vtx 3 0 1 0)).
    cbn [bind app]. rewrite (sort_one std_sort by_avgZ _ Hsort) by reflexivity.
    vm_compute. reflexivity.
Qed.

(** C3.  In a successful run a vertex is flagged visible exactly when
    it is a corner of a face that is not degenerate and whose unit
    normal has [n.z > 0], and a dot is drawn at the projection of a
    vertex exactly when it is flagged and its transformed [z] is
    [> 0]. *)
Theorem C3_visibility
        (std_sort : forall A : Type, (A -> A -> bool) -> list A -> list A)
        (g : Globals spec_float) (cmds : list DrawCmd) :
  sort_contract std_sort ->
  strict_weak_onb by_avgZ (indexed (transformed g) (faces g)) = true ->
  drawShadedModel std_sort g = Ok cmds ->
  visibility_dots (transformed g) (faces g) cmds.
Proof.
  intros Hsort Hswo Hrun.
  destruct (draw_anatomy std_sort Hsort g cmds Hswo Hrun)
    as (_ & _ & _ & chunks & vis & ps & -> & Hp & Hlen & Hi & Hps).
  set (tr := transformed g) in *.
  exists vis. split; [exact Hlen|]. split; [exact Hi|].
  exists ps. split.
  - rewrite List.filter_app, (ellipses_of_chunks _ _ _ Hp), ellipses_of_dots. reflexivity.
  - rewrite (List.filter_ext_in (marked tr vis) (shown tr vis)); [exact Hps|].
    intros i _. unfold marked, shown.
    destruct (vis !! i) as [[|]|] eqn:Hvi; try reflexivity.
    destruct (tr !! i) as [v|] eqn:Hv; [|reflexivity].
    apply Hi in Hvi as (f & _ & Hl). symmetry.
    apply B32Facts.not_le_zero. exact (lights_z tr f i v Hl Hv).
Qed.

End Binary32Shading.

Lemma C2_shading_witness :
  shaded_by_normal (FA := b32) (transformed tetra) (faces tetra) tetra_cmds.
Proof.
  apply (C2_shading Poly.m insertion_sort tetra tetra_cmds).
  - exact insertion_sort_contract.
  - vm_compute. reflexivity.
  - vm_compute. reflexivity.
Defined.

Lemma C3_visibility_witness :
  visibility_dots (FA := b32) (transformed tetra) (faces tetra) tetra_cmds.
Proof.
  apply (C3_visibility Poly.m insertion_sort tetra tetra_cmds).
  - exact insertion_sort_contract.
  - vm_compute. reflexivity.
  - vm_compute. reflexivity.
Defined.

(** ** The loader (C6, C7) *)

Lemma string_append_assoc (a b c : string) :
  String.append (String.append a b) c = String.append a (String.append b c).
Proof. induction a as [|ch a IH]; simpl; [reflexivity|rewrite IH; reflexivity]. Qed.

Section LoaderFacts.

Context {R : Type}.
Variable extract : string -> R.

Lemma until_newline_line (l rest : string) :
  has_newline l = false ->
  until_newline (String.append l (String newline rest)) = (l, Some rest).
Proof.
  induction l as [|c l IH]; simpl.
  - intros _. reflexivity.
  - intros H. apply orb_false_iff in H as [Hc Hl]. rewrite Hc, (IH Hl). reflexivity.
Qed.

Lemma getline_line (l rest line : string) :
  has_newline l = false ->
  getline (mkStream (String.append l (String newline rest)) false false) line
  = (mkStream rest false false, l).
Proof. intros H. unfold getline. simpl. rewrite (until_newline_line l rest H). reflexivity. Qed.

(** The loop on a stream that starts with the lines [ls]: it returns
    once the last of them is read, with one record per non-blank
    line. *)
Lemma load_loop_lines (count : Z) (rest : string) (ls : list string) :
  forall (fuel : nat) (line : string) (i : Z) (acc : list R),
    forallb (fun l => negb (has_newline l)) ls = true ->
    (forall l, last ls = Some l -> nonblank l = true) ->
    i + Z.of_nat (length (List.filter nonblank ls)) = count ->
    (length ls < fuel)%nat ->
    load_loop extract fuel (mkStream (text ls ++ rest) false false) line i count acc
    = Some (mkStream rest false false,
            acc ++ map (fun l => extract (replace_commas l)) (List.filter nonblank ls)).
Proof.
  induction ls as [|l ls IH]; intros fuel line i acc Hnl Hlast Hcount Hfuel.
  - simpl in *. destruct fuel as [|fuel]; [lia|]. simpl.
    destruct (Z.ltb_spec i count); [lia|]. rewrite app_nil_r. reflexivity.
  - simpl in Hnl. apply andb_true_iff in Hnl as [Hl Hnl].
    apply negb_true_iff in Hl.
    destruct fuel as [|fuel]; [simpl in Hfuel; lia|]. simpl in Hfuel.
    assert (Hlast' : forall l', last ls = Some l' -> nonblank l' = true).
    { intros l' Hl'. apply Hlast. destruct ls; [discriminate|exact Hl']. }
    assert (Hpos : (0 < length (List.filter nonblank (l :: ls)))%nat).
    { destruct ls as [|l2 ls2].
      - simpl. rewrite (Hlast l eq_refl). simpl. lia.
      - simpl. destruct (nonblank l); simpl; [lia|].
        clear -Hlast'. revert l2 Hlast'. induction ls2 as [|l3 ls3 IH3]; intros l2 Hlast'.
        + simpl. rewrite (Hlast' l2 eq_refl). simpl. lia.
        + simpl. destruct (nonblank l2); simpl; [lia|]. apply IH3.
          intros l' Hl'. apply Hlast'. exact Hl'. }
    cbn [load_loop]. destruct (Z.ltb_spec i count) as [_|Hge]; [|lia].
    cbn [text]. rewrite string_append_assoc. cbn [String.append].
    rewrite (getline_line l _ line Hl).
    simpl in Hcount |- *. unfold nonblank at 1 in Hcount. unfold nonblank at 1.
    destruct (empty l) eqn:He; simpl in Hcount |- *.
    + apply IH; auto; lia.
    + rewrite IH; auto; try lia. rewrite <- app_assoc. reflexivity.
Qed.



End LoaderFacts.

Section LoadedRecords.

Context {R : Type}.
Variable extract : string -> R.

(** Every record the loop adds is the extraction of some line; the
    loop looks at nothing else. *)
Lemma load_loop_records (fuel : nat) (file file' : ifstream) (line : string)
      (i count : Z) (acc records : list R) :
  load_loop extract fuel file line i count acc = Some (file', records) ->
  exists new, records = acc ++ new /\ Forall (fun r => exists l, r = extract l) new.
Proof.
  revert file line i acc. induction fuel as [|fuel IH]; intros file line i acc; [discriminate|].
  simpl. destruct (i <? count).
  - destruct (getline file line) as [file1 line1]. destruct (empty line1).
    + apply IH.
    + intros H. apply IH in H as (new & -> & Hnew).
      exists (extract (replace_commas line1) :: new). rewrite <- app_assoc.
      split; [reflexivity|]. constructor; [eauto|exact Hnew].
  - intros [= <- <-]. exists []. rewrite app_nil_r. auto.
Qed.

End LoadedRecords.

Lemma replace_commas_idem (s : string) :
  replace_commas (replace_commas s) = replace_commas s.
Proof.
  induction s as [|c s IH]; simpl; [reflexivity|]. rewrite IH.
  destruct (Ascii.eqb c ",") eqn:E; [reflexivity|]. rewrite E. reflexivity.
Qed.

Lemma replace_commas_empty (s : string) : empty (replace_commas s) = empty s.
Proof. destruct s; reflexivity. Qed.


Lemma until_newline_last (l : string) :
  has_newline l = false -> until_newline l = (l, None).
Proof.
  induction l as [|c l IH]; simpl; [reflexivity|].
  intros H. apply orb_false_iff in H as [Hc Hl]. rewrite Hc, (IH Hl). reflexivity.
Qed.

Section EndOfInputFacts.

Context {R : Type}.
Variable extract : string -> R.

Lemma load_loop_good (fuel : nat) (file : ifstream) (l1 l2 : string) (i count : Z)
      (acc : list R) :
  good file = true ->
  load_loop extract fuel file l1 i count acc = load_loop extract fuel file l2 i count acc.
Proof.
  intros Hg. destruct fuel as [|fuel]; [reflexivity|]. simpl.
  destruct (i <? count); [|reflexivity]. unfold getline. rewrite Hg. reflexivity.
Qed.


(** While records are still missing, the lines at the head of the
    stream are consumed one per iteration. *)
Lemma load_loop_prefix (count : Z) (rest : string) (ls : list string) :
  forall (fuel : nat) (line : string) (i : Z) (acc : list R),
    forallb (fun l => negb (has_newline l)) ls = true ->
    i + Z.of_nat (length (List.filter nonblank ls)) < count ->
    load_loop extract (length ls + fuel) (mkStream (text ls ++ rest) false false)
              line i count acc
    = load_loop extract fuel (mkStream rest false false) EmptyString
                (i + Z.of_nat (length (List.filter nonblank ls))) count
                (acc ++ records_of extract ls).
Proof.
  unfold records_of.
  induction ls as [|l ls IH]; intros fuel line i acc Hnl Hlt.
  - simpl in *. rewrite Z.add_0_r, app_nil_r. apply load_loop_good. reflexivity.
  - simpl in Hnl. apply andb_true_iff in Hnl as [Hl Hnl]. apply negb_true_iff in Hl.
    cbn [length Nat.add load_loop]. destruct (Z.ltb_spec i count) as [_|Hge].
    2:{ cbn [List.filter] in Hlt. destruct (nonblank l); simpl in Hlt; lia. }
    cbn [text]. rewrite string_append_assoc. cbn [String.append].
    rewrite (getline_line l _ line Hl).
    cbn [List.filter] in Hlt |- *.
    assert (Hnb : nonblank l = negb (empty l)) by reflexivity.
    rewrite Hnb in Hlt |- *. clear Hnb.
    destruct (empty l) eqn:He; cbn [negb length map] in Hlt |- *.
    + replace (i - 1 + 1) with i by lia. apply IH; [exact Hnl|exact Hlt].
    + rewrite IH; [|exact Hnl|lia]. rewrite <- app_assoc. f_equal. lia.
Qed.

(** On a stream that has failed with a record in hand, every further
    iteration reads that record again. *)
Lemma load_loop_stale (count : Z) (n : nat) :
  forall (fuel : nat) (file : ifstream) (line : string) (i : Z) (acc : list R),
    good file = false -> empty line = false ->
    count - i = Z.of_nat n -> (n < fuel)%nat ->
    load_loop extract fuel file line i count acc
    = Some (match n with
            | O => file
            | S _ => mkStream (buffer file) (eofbit file) true
            end,
            acc ++ replicate n (extract (replace_commas line))).
Proof.
  induction n as [|n IH]; intros fuel file line i acc Hbad Hne Hn Hfuel;
    (destruct fuel as [|fuel]; [lia|]); simpl.
  - destruct (Z.ltb_spec i count); [lia|]. rewrite app_nil_r. reflexivity.
  - destruct (Z.ltb_spec i count); [|lia]. unfold getline. rewrite Hbad, Hne.
    rewrite (IH fuel (mkStream (buffer file) (eofbit file) true) (replace_commas line)).
    + rewrite replace_commas_idem, <- app_assoc. destruct n; reflexivity.
    + unfold good. simpl. apply andb_false_r.
    + rewrite replace_commas_empty. exact Hne.
    + lia.
    + lia.
Qed.

(** An unterminated last line that completes the count is read like
    any other line; the stream is then at its end, with [eofbit] set. *)
Lemma load_loop_final_line (count : Z) (init : list string) (l : string) (fuel : nat) :
  forallb (fun l => negb (has_newline l)) init = true ->
  has_newline l = false -> empty l = false ->
  Z.of_nat (length (List.filter nonblank init)) + 1 = count ->
  (length init + 1 < fuel)%nat ->
  load_loop extract fuel (mkStream (text init ++ l) false false) EmptyString 0 count []
  = Some (mkStream EmptyString true false, records_of extract (init ++ [l])).
Proof.
  intros Hnl Hl Hne Hcount Hfuel.
  set (k := length (List.filter nonblank init)) in *.
  replace fuel with (length init + (fuel - length init))%nat by lia.
  rewrite (load_loop_prefix count l init _ EmptyString 0 [] Hnl) by (fold k; lia).
  fold k. replace (0 + Z.of_nat k) with (Z.of_nat k) by lia. rewrite app_nil_l.
  destruct (fuel - length init)%nat as [|[|fuel']] eqn:Hf; [lia|lia|].
  cbn [load_loop]. destruct (Z.ltb_spec (Z.of_nat k) count); [|lia].
  unfold getline. cbn [good eofbit failbit negb andb buffer].
  rewrite (until_newline_last l Hl), Hne.
  destruct (Z.ltb_spec (Z.of_nat k + 1) count); [lia|].
  assert (Hnb : nonblank l = true) by (unfold nonblank; rewrite Hne; reflexivity).
  unfold records_of. rewrite List.filter_app, map_app. cbn [List.filter map].
  rewrite Hnb. reflexivity.
Qed.

(** When the loop returns, it has added as many records as were
    missing, neither more nor fewer. *)
Lemma load_loop_count (fuel : nat) :
  forall (file file' : ifstream) (line : string) (i count : Z) (acc records : list R),
    load_loop extract fuel file line i count acc = Some (file', records) ->
    Z.of_nat (length records) = Z.of_nat (length acc) + Z.max 0 (count - i).
Proof.
  induction fuel as [|fuel IH]; intros file file' line i count acc records; [discriminate|].
  simpl. destruct (Z.ltb_spec i count) as [Hlt|Hge].
  - destruct (getline file line) as [file1 line1]. destruct (empty line1).
    + intros H. apply IH in H. lia.
    + intros H. apply IH in H. rewrite length_app in H. simpl in H. lia.
  - intros [= <- <-]. lia.
Qed.

End EndOfInputFacts.




(** ** Face indices (C6) *)

Section FaceIndices.

Context {F : Type} {FA : FloatArith F}.

(** C6, as the code has it.  [loadFaces] is given no vertex count and
    rejects nothing: whenever it returns it has collected [faceCount]
    records, each the extraction of a line, and on a stream of lines
    it returns the record of every non-blank line, in order, whatever
    indices they hold.  The rasterizer's accesses
    [transformed[index - 1]] and [vertexVisible[index - 1]] are all in
    bounds exactly when every index of every face lies in
    [1, len(vertices)]. *)
Theorem C6_face_indices
        (std_sort : forall A : Type, (A -> A -> bool) -> list A -> list A)
        (extract_face : string -> Face) (g : Globals F) :
  sort_contract std_sort ->
  strict_weak_onb by_avgZ (indexed (transformed (applyTransform g)) (faces g)) = true ->
  (forall fuel file count file' fs,
      loadFaces extract_face fuel file count = Some (file', fs) ->
      Z.of_nat (length fs) = Z.max 0 count /\
      forall f, In f fs -> exists line, f = extract_face line) /\
  (forall (ls : list string) (rest : string) (fuel : nat),
      forallb (fun l => negb (has_newline l)) ls = true ->
      (forall l, last ls = Some l -> nonblank l = true) ->
      (length ls < fuel)%nat ->
      loadFaces extract_face fuel (mkStream (text ls ++ rest) false false)
                (Z.of_nat (length (List.filter nonblank ls)))
      = Some (mkStream rest false false, records_of extract_face ls) /\
      forall (init : list string) (l : string),
        ls = init ++ [l] ->
        loadFaces extract_face fuel (mkStream (text init ++ l) false false)
                  (Z.of_nat (length (List.filter nonblank ls)))
        = Some (mkStream EmptyString true false, records_of extract_face ls)) /\
  ((forall f, In f (faces g) ->
              1 <= v1 f <= Z.of_nat (length (vertices g)) /\
              1 <= v2 f <= Z.of_nat (length (vertices g)) /\
              1 <= v3 f <= Z.of_nat (length (vertices g)))
   <-> drawShadedModel std_sort (applyTransform g) <> Undefined OutOfBounds).
Proof.
  intros Hsort Hswo. split; [|split].
  - intros fuel file count file' fs Hload. split.
    + apply load_loop_count in Hload. simpl in Hload. lia.
    + intros f Hf. apply load_loop_records in Hload as (new & -> & Hnew).
      rewrite List.Forall_forall in Hnew. apply Hnew, Hf.
  - intros ls rest fuel Hnl Hlast Hfuel. unfold loadFaces, load_records. split.
    + apply (load_loop_lines extract_face _ rest ls fuel EmptyString 0 []); auto.
    + intros init l Hls. subst ls.
      rewrite forallb_app in Hnl. apply andb_true_iff in Hnl as [Hinit Hl].
      simpl in Hl. rewrite andb_true_r in Hl. apply negb_true_iff in Hl.
      assert (Hne : empty l = false).
      { apply negb_true_iff. apply (Hlast l). apply last_snoc. }
      rewrite length_app in Hfuel. simpl in Hfuel.
      apply (load_loop_final_line extract_face _ init l fuel Hinit Hl Hne); [|lia].
      assert (Hnb : nonblank l = true) by (unfold nonblank; rewrite Hne; reflexivity).
      rewrite List.filter_app, length_app. cbn [List.filter].
      rewrite Hnb. simpl. lia.
  - pose proof (applyTransform_ids g) as [Hlen _].
    destruct (applyTransform_frame g) as (_ & Hfaces & _).
    set (g' := applyTransform g) in *. rewrite <- Hfaces in *. rewrite <- Hlen.
    assert (Hvalid : forall f, valid_face (length (transformed g')) f = true <->
                               1 <= v1 f <= Z.of_nat (length (transformed g')) /\
                               1 <= v2 f <= Z.of_nat (length (transformed g')) /\
                               1 <= v3 f <= Z.of_nat (length (transformed g'))).
    { intros f. unfold valid_face, in_range.
      rewrite !andb_true_iff, !Z.leb_le. tauto. }
    split.
    + intros Hall. apply (draw_in_bounds std_sort Hsort g' Hswo).
      apply forallb_forall. intros f Hf. apply Hvalid, Hall, Hf.
    + intros Hrun f Hf. apply Hvalid.
      destruct (forallb (valid_face (length (transformed g'))) (faces g')) eqn:Hv.
      * rewrite forallb_forall in Hv. apply Hv, Hf.
      * exfalso. apply Hrun. unfold drawShadedModel.
        rewrite (first_loop_invalid _ _ _ Hv). reflexivity.
Qed.

End FaceIndices.

Lemma C6_face_indices_witness :
  loadFaces Extract.face 3 (mkStream (text ["1 2 3"; "1 2 7"]%string ++ "") false false)
            (Z.of_nat (length (List.filter nonblank ["1 2 3"; "1 2 7"]%string)))
  = Some (mkStream "" false false, [mkFace 1 2 3; mkFace 1 2 7]) /\
  drawShadedModel (FA := b32) insertion_sort (applyTransform (FA := b32) unit_triangle)
  <> Undefined OutOfBounds.
Proof.
  destruct (C6_face_indices (FA := b32) insertion_sort Extract.face unit_triangle
                            insertion_sort_contract) as (_ & Hload & Hdraw).
  - vm_compute. reflexivity.
  - split.
    + apply (Hload ["1 2 3"; "1 2 7"]%string ""%string 3%nat).
      * reflexivity.
      * intros l [= <-]. reflexivity.
      * simpl. lia.
    + apply Hdraw. intros f Hf. simpl in Hf.
      destruct Hf as [<-|[]]; simpl; lia.
Defined.

(** The record "1 2 7" is loaded for a mesh of three vertices, and the
    rasterizer then reads past the end of [transformed]. *)
Lemma C6_index_not_validated :
  loadFaces Extract.face 2 (mkStream (text ["1 2 7"]%string) false false) 1
  = Some (mkStream "" false false, faces stray) /\
  length (vertices stray) = 3%nat /\
  drawShadedModel (FA := b32) insertion_sort (applyTransform (FA := b32) stray)
  = Undefined OutOfBounds.
Proof. vm_compute. auto. Qed.

(** ** Empty and single-point meshes (C8) *)

Section Unguarded.

Variable m : libm.
Local Instance b32u : FloatArith spec_float := binary32_arith m.

Lemma placed_not_finite (cx cy cz tX tY : spec_float) (s : bool) (v : Vertex spec_float) :
  not_finite (placed cx cy cz (S754_zero s) tX tY v).
Proof.
  unfold not_finite, placed. simpl.
  fold B32.sub B32.mul B32.add B32.div.
  split; [|split].
  - apply B32Facts.add_not_finite_l, B32Facts.mul_not_finite, B32Facts.div_by_zero.
  - apply B32Facts.sub_not_finite_l, B32Facts.mul_not_finite, B32Facts.div_by_zero.
  - apply B32Facts.add_not_finite_l, B32Facts.mul_not_finite, B32Facts.opp_not_finite,
      B32Facts.div_by_zero.
Qed.

(** C8, as the code has it.  [applyTransform] has no failure path.  On
    an empty mesh it returns the empty sequence.  When [maxExtent] is
    zero it divides by it all the same, and every coordinate of every
    transformed vertex is NaN or infinite. *)
Theorem C8_unguarded (g : Globals spec_float) :
  let vs := vertices g in
  let cx := mean (map x vs) in
  let cy := mean (map y vs) in
  let cz := mean (map z vs) in
  let maxExtent := running_max (map (dist_to cx cy cz) vs) in
  (vs = [] -> transformed (applyTransform g) = []) /\
  (forall s : bool,
      maxExtent = S754_zero s ->
      length (transformed (applyTransform g)) = length vs /\
      Forall not_finite (transformed (applyTransform g))).
Proof.
  cbv zeta. rewrite applyTransform_map. cbv zeta. split.
  - intros ->. reflexivity.
  - intros s ->. split; [apply length_map|].
    apply List.Forall_forall. intros t Ht.
    apply in_map_iff in Ht as (v & <- & _). apply placed_not_finite.
Qed.

End Unguarded.

Lemma C8_unguarded_witness :
  length (transformed (applyTransform (FA := b32) single_point)) = 1%nat /\
  Forall not_finite (transformed (applyTransform (FA := b32) single_point)).
Proof.
  apply (proj2 (C8_unguarded Poly.m single_point) false).
  vm_compute. reflexivity.
Defined.

(** The empty mesh is transformed to the empty sequence without any
    error, and the single vertex (1, 2, 3) to three NaN. *)
Lemma C8_silent_nan :
  transformed (applyTransform (FA := b32) empty_mesh) = [] /\
  transformed (applyTransform (FA := b32) single_point)
  = [mkVertex 1 S754_nan S754_nan S754_nan].
Proof. vm_compute. auto. Qed.

(** ** The [id] field (C10) *)

Section VertexId.

Context {F : Type} {FA : FloatArith F}.
Variable std_sort : forall A : Type, (A -> A -> bool) -> list A -> list A.

Lemma foldM_ext {A S : Type} (body body' : S -> A -> result S) (l : list A) (s : S) :
  (forall s a, body s a = body' s a) -> foldM body l s = foldM body' l s.
Proof.
  intros H. revert s. induction l as [|a l IH]; intros s; simpl; [reflexivity|].
  rewrite H. destruct (body' s a); simpl; [apply IH|reflexivity].
Qed.

Lemma at_index_strip (tr : list (Vertex F)) (i : Z) :
  at_index (map strip tr) i =
  match at_index tr i with Ok a => Ok (strip a) | Undefined u => Undefined u end.
Proof.
  unfold at_index. destruct (0 <=? i); [|reflexivity].
  rewrite list_lookup_fmap. destruct (tr !! Z.to_nat i); reflexivity.
Qed.

Lemma push_indexed_strip (tr : list (Vertex F)) acc f :
  push_indexed (map strip tr) acc f = push_indexed tr acc f.
Proof.
  unfold push_indexed. rewrite !at_index_strip.
  destruct (at_index tr (v1 f - 1)); simpl; [|reflexivity].
  destruct (at_index tr (v2 f - 1)); simpl; [|reflexivity].
  destruct (at_index tr (v3 f - 1)); simpl; reflexivity.
Qed.

Lemma shade_face_strip (tr : list (Vertex F)) st e :
  shade_face (map strip tr) st e = shade_face tr st e.
Proof.
  unfold shade_face. rewrite !at_index_strip.
  destruct (at_index tr (v1 (face e) - 1)); simpl; [|reflexivity].
  destruct (at_index tr (v2 (face e) - 1)); simpl; [|reflexivity].
  destruct (at_index tr (v3 (face e) - 1)); simpl; reflexivity.
Qed.

Lemma draw_dot_strip (tr : list (Vertex F)) vis cmds i :
  draw_dot (map strip tr) vis cmds i = draw_dot tr vis cmds i.
Proof.
  unfold draw_dot. rewrite !at_index_strip.
  destruct (at_index vis (Z.of_nat i)) as [[|]|]; simpl; try reflexivity.
  destruct (at_index tr (Z.of_nat i)); simpl; reflexivity.
Qed.

Lemma draw_strip (g : Globals F) :
  drawShadedModel std_sort g =
  drawShadedModel std_sort
    (mkGlobals (vertices g) (faces g) (map strip (transformed g)) (angleX g) (angleY g)).
Proof.
  unfold drawShadedModel. simpl. rewrite length_map.
  rewrite (foldM_ext _ _ _ _ (push_indexed_strip (transformed g))).
  destruct (foldM (push_indexed (transformed g)) (faces g) []) as [es|]; simpl; [|reflexivity].
  rewrite (foldM_ext _ _ _ _ (shade_face_strip (transformed g))).
  destruct (foldM (shade_face (transformed g)) _ _) as [st|]; simpl; [|reflexivity].
  apply foldM_ext. intros. symmetry. apply draw_dot_strip.
Qed.

Lemma strip_coords (l l' : list (Vertex F)) :
  map coords l = map coords l' -> map strip l = map strip l'.
Proof.
  revert l'. induction l as [|v l IH]; intros [|v' l']; simpl; try discriminate; [reflexivity|].
  intros [= Hx Hy Hz H]. rewrite (IH _ H). unfold strip. rewrite Hx, Hy, Hz. reflexivity.
Qed.

Lemma coords_fields (l l' : list (Vertex F)) :
  map coords l = map coords l' ->
  map x l = map x l' /\ map y l = map y l' /\ map z l = map z l'.
Proof.
  revert l'. induction l as [|v l IH]; intros [|v' l']; simpl; try discriminate; [auto|].
  intros [= Hx Hy Hz H]. destruct (IH _ H) as (-> & -> & ->). rewrite Hx, Hy, Hz. auto.
Qed.

Lemma dist_to_coords (cx cy cz : F) (l l' : list (Vertex F)) :
  map coords l = map coords l' ->
  map (dist_to cx cy cz) l = map (dist_to cx cy cz) l'.
Proof.
  revert l'. induction l as [|v l IH]; intros [|v' l']; simpl; try discriminate; [reflexivity|].
  intros [= Hx Hy Hz H]. rewrite (IH _ H). f_equal.
  unfold dist_to. rewrite Hx, Hy, Hz. reflexivity.
Qed.

Lemma placed_coords (cx cy cz m tX tY : F) (l l' : list (Vertex F)) :
  map coords l = map coords l' ->
  map coords (map (placed cx cy cz m tX tY) l)
  = map coords (map (placed cx cy cz m tX tY) l').
Proof.
  revert l'. induction l as [|v l IH]; intros [|v' l']; simpl; try discriminate; [reflexivity|].
  intros [= Hx Hy Hz H]. rewrite (IH _ H). f_equal.
  unfold placed, coords. simpl. rewrite Hx, Hy, Hz. reflexivity.
Qed.

(** C10.  The [id] of a vertex is copied by [rotateX], [rotateY] and
    [applyTransform] and read by nothing: two meshes that differ only
    in the [id] fields of their vertices have the same transformed
    coordinates and the same outcome of [drawShadedModel], command for
    command. *)
Theorem C10_id_noninterference (g1 g2 : Globals F) :
  map coords (vertices g1) = map coords (vertices g2) ->
  faces g1 = faces g2 ->
  angleX g1 = angleX g2 ->
  angleY g1 = angleY g2 ->
  map coords (transformed (applyTransform g1)) = map coords (transformed (applyTransform g2)) /\
  drawShadedModel std_sort (applyTransform g1) = drawShadedModel std_sort (applyTransform g2) /\
  map id (transformed (applyTransform g1)) = map id (vertices g1) /\
  (forall v angle, id (rotateX v angle) = id v /\ id (rotateY v angle) = id v /\
                   coords (rotateX v angle) = coords (rotateX (strip v) angle) /\
                   coords (rotateY v angle) = coords (rotateY (strip v) angle)).
Proof.
  intros Hv Hf HaX HaY.
  assert (Hc : map coords (transformed (applyTransform g1))
               = map coords (transformed (applyTransform g2))).
  { rewrite !applyTransform_map. cbv zeta.
    destruct (coords_fields _ _ Hv) as (-> & -> & ->).
    rewrite HaX, HaY, (dist_to_coords _ _ _ _ _ Hv).
    apply placed_coords, Hv. }
  split; [exact Hc|]. split; [|split].
  - rewrite (draw_strip (applyTransform g1)), (draw_strip (applyTransform g2)).
    destruct (applyTransform_frame g1) as (_ & -> & _ & _).
    destruct (applyTransform_frame g2) as (_ & -> & _ & _).
    rewrite (strip_coords _ _ Hc), Hf. unfold drawShadedModel. reflexivity.
  - apply applyTransform_ids.
  - intros v angle. repeat split.
Qed.

End VertexId.

Lemma C10_id_noninterference_witness :
  drawShadedModel (FA := b32) insertion_sort (applyTransform (FA := b32) unit_triangle)
  = drawShadedModel (FA := b32) insertion_sort (applyTransform (FA := b32) renamed_triangle).
Proof.
  exact (proj1 (proj2 (C10_id_noninterference (FA := b32) insertion_sort
                         unit_triangle renamed_triangle eq_refl eq_refl eq_refl eq_refl))).
Defined.

(** ** The unit sphere (C9) *)

Section MaxExtent.

Variable m : libm.
Local Instance b32e : FloatArith spec_float := binary32_arith m.

(** The running maximum of the second loop, from any start value: it
    is the start value or an element, and nothing compares above it. *)
Lemma running_max_b32 (l : list spec_float) (a : spec_float) :
  B32.is_nan a = false ->
  Forall (fun d => B32.is_nan d = false) l ->
  let r := fold_left (fun mx d => if SFltb mx d then d else mx) l a in
  B32.is_nan r = false /\
  SFltb r a = false /\
  Forall (fun d => SFltb r d = false) l /\
  (r = a \/ In r l).
Proof.
  revert a. induction l as [|d l IH]; intros a Ha Hl; cbn [fold_left].
  - repeat split; auto.
    destruct (SFltb a a) eqn:E; [|reflexivity].
    apply (ltb_lex a a Ha Ha) in E. destruct (lex_lt_irrefl _ E).
  - apply Forall_cons in Hl as [Hd Hl].
    set (a' := if SFltb a d then d else a).
    assert (Ha' : B32.is_nan a' = false) by (unfold a'; destruct (SFltb a d); assumption).
    destruct (IH a' Ha' Hl) as (Hr & Hra' & Hall & Hin).
    set (r := fold_left _ l a') in *.
    assert (Hlt : forall p q, B32.is_nan p = false -> B32.is_nan q = false ->
                              SFltb p q = false -> ~ lex_lt (B32.key p) (B32.key q)).
    { intros p q Hp Hq E L. apply (ltb_lex p q Hp Hq) in L. congruence. }
    assert (Hge : forall p q, B32.is_nan p = false -> B32.is_nan q = false ->
                              ~ lex_lt (B32.key p) (B32.key q) -> SFltb p q = false).
    { intros p q Hp Hq L. destruct (SFltb p q) eqn:E; [|reflexivity].
      apply (ltb_lex p q Hp Hq) in E. contradiction. }
    pose proof (Hlt r a' Hr Ha' Hra') as Kra'.
    assert (Kad : if SFltb a d then lex_lt (B32.key a) (B32.key d)
                  else ~ lex_lt (B32.key a) (B32.key d)).
    { destruct (SFltb a d) eqn:E; [apply (ltb_lex a d Ha Hd), E|apply (Hlt a d Ha Hd E)]. }
    split; [exact Hr|]. split; [|split].
    + apply (Hge r a Hr Ha). unfold a' in Kra'.
      destruct (SFltb a d); destruct (B32.key r) as [[? ?] ?], (B32.key a) as [[? ?] ?],
        (B32.key d) as [[? ?] ?]; unfold lex_lt in *; lia.
    + constructor; [|exact Hall].
      apply (Hge r d Hr Hd). unfold a' in Kra'.
      destruct (SFltb a d); destruct (B32.key r) as [[? ?] ?], (B32.key a) as [[? ?] ?],
        (B32.key d) as [[? ?] ?]; unfold lex_lt in *; lia.
    + destruct Hin as [Hin|Hin]; [|right; right; exact Hin].
      unfold a' in Hin. destruct (SFltb a d); [right; left; symmetry; exact Hin|left; exact Hin].
Qed.

(** C9, as the code has it.  [applyTransform] places every vertex with
    the computed centroid as centre and [maxExtent] as divisor; when no
    computed distance to the centroid is NaN, no vertex has a distance
    above [maxExtent], and [maxExtent] is 0 or the distance of one of
    the vertices.  Nothing more is guaranteed about the distances of
    the transformed vertices. *)
Theorem C9_max_extent (g : Globals spec_float) :
  let vs := vertices g in
  let cx := mean (map x vs) in
  let cy := mean (map y vs) in
  let cz := mean (map z vs) in
  let maxExtent := running_max (map (dist_to cx cy cz) vs) in
  Forall (fun v => B32.is_nan (dist_to cx cy cz v) = false) vs ->
  transformed (applyTransform g)
  = map (placed cx cy cz maxExtent (radians (angleX g)) (radians (angleY g))) vs /\
  B32.is_nan maxExtent = false /\
  SFltb maxExtent (B32.of_Z 0) = false /\
  Forall (fun v => SFltb maxExtent (dist_to cx cy cz v) = false) vs /\
  (maxExtent = B32.of_Z 0 \/ exists v, In v vs /\ maxExtent = dist_to cx cy cz v).
Proof.
  cbv zeta. intros Hn. split; [apply applyTransform_map|].
  set (cx := mean (map x (vertices g))). set (cy := mean (map y (vertices g))).
  set (cz := mean (map z (vertices g))) in *.
  assert (Hl : Forall (fun d => B32.is_nan d = false) (map (dist_to cx cy cz) (vertices g))).
  { apply List.Forall_forall. intros d Hd. apply in_map_iff in Hd as (v & <- & Hv).
    rewrite List.Forall_forall in Hn. apply Hn, Hv. }
  destruct (running_max_b32 _ (B32.of_Z 0) eq_refl Hl) as (Hr & H0 & Hall & Hin).
  unfold running_max. simpl of_int. simpl flt.
  split; [exact Hr|]. split; [exact H0|]. split.
  - apply List.Forall_forall. intros v Hv. rewrite List.Forall_forall in Hall.
    apply Hall, in_map, Hv.
  - destruct Hin as [Hin|Hin]; [left; exact Hin|right].
    apply in_map_iff in Hin as (v & Hv & Hin). exists v. split; [exact Hin|].
    symmetry. exact Hv.
Qed.

End MaxExtent.

Lemma C9_max_extent_witness :
  let vs := vertices survey in
  let cx := mean (FA := b32) (map x vs) in
  let cy := mean (FA := b32) (map y vs) in
  let cz := mean (FA := b32) (map z vs) in
  let maxExtent := running_max (FA := b32) (map (dist_to (FA := b32) cx cy cz) vs) in
  transformed (applyTransform (FA := b32) survey)
  = map (placed (FA := b32) cx cy cz maxExtent (radians (FA := b32) (angleX survey))
                (radians (FA := b32) (angleY survey))) vs /\
  B32.is_nan maxExtent = false /\
  SFltb maxExtent (B32.of_Z 0) = false /\
  Forall (fun v => SFltb maxExtent (dist_to (FA := b32) cx cy cz v) = false) vs /\
  (maxExtent = B32.of_Z 0 \/ exists v, In v vs /\ maxExtent = dist_to (FA := b32) cx cy cz v).
Proof.
  apply (C9_max_extent Poly.m survey). repeat constructor.
Defined.

(** The bound fails in two ways.  Two vertices with [x = 3e38], one
    unit apart in [y]: the sum of the two [x] overflows, the centroid
    and [maxExtent] are infinite, and the transformed [x] and [z] are
    NaN, at no distance from anything.  And without any overflow: the
    five vertices of [survey] have the true centroid [x = 16777000.8],
    the computed sum is rounded to 83885008 and the computed centroid
    to 16777002; the transformed vertices are four times (-1,0,0) and
    once (1,0,0), all finite, and the last one lies at distance 1.6,
    above 1.5, from their centroid (-0.6,0,0). *)
Lemma C9_no_unit_bound :
  (let vs := vertices far_pair in
   let cx := mean (FA := b32) (map x vs) in
   let cy := mean (FA := b32) (map y vs) in
   let cz := mean (FA := b32) (map z vs) in
   let out := transformed (applyTransform (FA := b32) far_pair) in
   running_max (FA := b32) (map (dist_to (FA := b32) cx cy cz) vs) = S754_infinity false /\
   SFltb (B32.of_Z 0) (S754_infinity false) = true /\
   out = [mkVertex 1 S754_nan (S754_zero true) S754_nan;
          mkVertex 2 S754_nan (S754_zero false) S754_nan] /\
   (forall bound : spec_float,
       Forall (fun t => fle (FloatArith := b32)
                            (dist_to (FA := b32) (mean (FA := b32) (map x out))
                                     (mean (FA := b32) (map y out))
                                     (mean (FA := b32) (map z out)) t) bound = false) out)) /\
  (let vs := vertices survey in
   let cx := mean (FA := b32) (map x vs) in
   let cy := mean (FA := b32) (map y vs) in
   let cz := mean (FA := b32) (map z vs) in
   let out := transformed (applyTransform (FA := b32) survey) in
   fsum (FA := b32) (map x vs) = B32.of_Z 83885008 /\
   (cx, cy, cz) = (B32.of_Z 16777002, B32.of_Z 0, B32.of_Z 0) /\
   running_max (FA := b32) (map (dist_to (FA := b32) cx cy cz) vs) = B32.of_Z 2 /\
   out = [vtx 1 (-1) 0 0; vtx 2 (-1) 0 0; vtx 3 (-1) 0 0; vtx 4 (-1) 0 0; vtx 5 1 0 0] /\
   (mean (FA := b32) (map x out), mean (FA := b32) (map y out), mean (FA := b32) (map z out))
   = (B32.of_dec (-6) (-1), B32.of_Z 0, B32.of_Z 0) /\
   dist_to (FA := b32) (mean (FA := b32) (map x out)) (mean (FA := b32) (map y out))
           (mean (FA := b32) (map z out)) (vtx 5 1 0 0) = B32.of_dec 16 (-1) /\
   SFltb (B32.of_dec 15 (-1)) (B32.of_dec 16 (-1)) = true).
Proof.
  split.
  - cbv zeta. split; [vm_compute; reflexivity|]. split; [reflexivity|].
    split; [vm_compute; reflexivity|].
    intros bound. repeat constructor.
  - vm_compute. auto 10.
Qed.

(** * Further properties of the code *)

(** ** [applyTransform] recomputes from scratch *)

Section Recompute.

Context {F : Type} {FA : FloatArith F}.

Lemma applyTransform_reads (g g' : Globals F) :
  vertices g = vertices g' -> faces g = faces g' ->
  angleX g = angleX g' -> angleY g = angleY g' ->
  applyTransform g = applyTransform g'.
Proof.
  intros Hv Hf HX HY. unfold applyTransform. rewrite Hv, Hf, HX, HY. reflexivity.
Qed.

Lemma applyTransform_twice (g : Globals F) :
  applyTransform (applyTransform g) = applyTransform g.
Proof.
  destruct (applyTransform_frame g) as (Hv & Hf & HX & HY).
  apply applyTransform_reads; assumption.
Qed.

End Recompute.

(** ** The window procedure *)

Section WindowFacts.

Context {F : Type} {FA : FloatArith F}.
Variable std_sort : forall A : Type, (A -> A -> bool) -> list A -> list A.

Lemma in_sync_applyTransform (g : Globals F) : in_sync (applyTransform g).
Proof. unfold in_sync. rewrite applyTransform_twice. reflexivity. Qed.

Lemma WndProc_step (w w' : Viewer F) (m : MSG) (effs : list Effect) (r : LRESULT) :
  WndProc std_sort w m = Ok (w', effs, r) ->
  vertices (globals w') = vertices (globals w) /\
  faces (globals w') = faces (globals w) /\
  (in_sync (globals w) -> in_sync (globals w')) /\
  (dragging w = false \/ message m <> WM_MOUSEMOVE ->
   globals w' = globals w /\ effs <> [InvalidateRect]) /\
  (message m <> WM_LBUTTONDOWN -> dragging w = false -> dragging w' = false).
Proof.
  unfold WndProc.
  destruct (message m =? WM_LBUTTONDOWN) eqn:E1.
  { intros [= <- <- <-]. simpl. apply Z.eqb_eq in E1.
    repeat split; auto; try discriminate. congruence. }
  destruct (message m =? WM_LBUTTONUP) eqn:E2.
  { intros [= <- <- <-]. simpl. repeat split; auto; discriminate. }
  destruct (message m =? WM_MOUSEMOVE) eqn:E3.
  { apply Z.eqb_eq in E3. destruct (dragging w) eqn:Hd.
    - intros [= <- <- <-]. cbn [globals dragging].
      set (g0 := mkGlobals _ _ _ _ _).
      destruct (applyTransform_frame g0) as (Hv & Hf & _ & _).
      repeat split; auto.
      + intros _. apply in_sync_applyTransform.
      + destruct H as [H|H]; [discriminate|contradiction].
      + destruct H as [H|H]; [discriminate|contradiction].
    - intros [= <- <- <-]. repeat split; auto; discriminate. }
  destruct (message m =? WM_PAINT) eqn:E4.
  { destruct (drawShadedModel std_sort (globals w)); simpl; [|discriminate].
    intros [= <- <- <-]. repeat split; auto; discriminate. }
  destruct (message m =? WM_DESTROY) eqn:E5.
  { intros [= <- <- <-]. repeat split; auto; discriminate. }
  intros [= <- <- <-]. repeat split; auto; discriminate.
Qed.

Lemma pump_cons (w w' : Viewer F) (m : MSG) (queue : list MSG) (effs : list Effect) :
  pump std_sort w (m :: queue) = Ok (w', effs) ->
  exists w1 e1 r1 e2,
    WndProc std_sort w m = Ok (w1, e1, r1) /\
    pump std_sort w1 queue = Ok (w', e2) /\ effs = e1 ++ e2.
Proof.
  simpl. destruct (WndProc std_sort w m) as [[[w1 e1] r1]|]; simpl; [|discriminate].
  destruct (pump std_sort w1 queue) as [[w2 e2]|] eqn:Hp; simpl; [|discriminate].
  intros [= <- <-]. exists w1, e1, r1, e2. split; [reflexivity|]. split; [exact Hp|reflexivity].
Qed.

Lemma pump_keeps (w w' : Viewer F) (queue : list MSG) (effs : list Effect) :
  pump std_sort w queue = Ok (w', effs) ->
  vertices (globals w') = vertices (globals w) /\
  faces (globals w') = faces (globals w) /\
  (in_sync (globals w) -> in_sync (globals w')).
Proof.
  revert w effs. induction queue as [|m queue IH]; intros w effs.
  - intros [= <- <-]. auto.
  - intros H. apply pump_cons in H as (w1 & e1 & r1 & e2 & H1 & H2 & _).
    apply WndProc_step in H1 as (Hv & Hf & Hs & _).
    apply IH in H2 as (Hv' & Hf' & Hs'). repeat split; try congruence. auto.
Qed.

(** X4.  Whatever messages arrive, the loaded mesh is never modified,
    and the transformed set never goes stale: if it is the transform of
    the mesh under the current angles before the messages, it is so
    after them. *)
Theorem X4_mesh_kept_in_sync (w w' : Viewer F) (queue : list MSG) (effs : list Effect) :
  pump std_sort w queue = Ok (w', effs) ->
  vertices (globals w') = vertices (globals w) /\
  faces (globals w') = faces (globals w) /\
  (in_sync (globals w) -> in_sync (globals w')).
Proof. apply pump_keeps. Qed.

(** The window procedure never opens a message box. *)
Lemma pump_no_box (w w' : Viewer F) (queue : list MSG) (effs : list Effect)
      (text caption : string) :
  pump std_sort w queue = Ok (w', effs) -> ~ In (MessageBoxA text caption) effs.
Proof.
  revert w effs. induction queue as [|m queue IH]; intros w effs.
  - intros [= <- <-] [].
  - intros H. apply pump_cons in H as (w1 & e1 & r1 & e2 & H1 & H2 & ->).
    rewrite in_app_iff. intros [Hin|Hin]; [|exact (IH _ _ H2 Hin)].
    revert H1 Hin. unfold WndProc.
    destruct (message m =? WM_LBUTTONDOWN); [intros [= <- <- <-] []|].
    destruct (message m =? WM_LBUTTONUP); [intros [= <- <- <-] []|].
    destruct (message m =? WM_MOUSEMOVE).
    { destruct (dragging w); intros [= <- <- <-] Hin; [|destruct Hin].
      destruct Hin as [|[]]; discriminate. }
    destruct (message m =? WM_PAINT).
    { destruct (drawShadedModel std_sort (globals w)); simpl; [|discriminate].
      intros [= <- <- <-] [|[]]. discriminate. }
    destruct (message m =? WM_DESTROY); intros [= <- <- <-] [|[]]; discriminate.
Qed.

(** X5.  The view turns only while the left button is held: with the
    button up, no sequence of messages without a button press changes
    the geometry, the angles or the drag state. *)
Theorem X5_no_turn_without_button (w w' : Viewer F) (queue : list MSG)
        (effs : list Effect) :
  dragging w = false ->
  Forall (fun m => message m <> WM_LBUTTONDOWN) queue ->
  pump std_sort w queue = Ok (w', effs) ->
  globals w' = globals w /\ dragging w' = false /\ ~ In InvalidateRect effs.
Proof.
  revert w effs. induction queue as [|m queue IH]; intros w effs Hd Hq.
  - intros [= <- <-]. auto.
  - intros H. apply pump_cons in H as (w1 & e1 & r1 & e2 & H1 & H2 & ->).
    apply Forall_cons in Hq as [Hm Hq].
    pose proof H1 as H1'.
    apply WndProc_step in H1 as (_ & _ & _ & Hg & Hdr).
    destruct (Hg (or_introl Hd)) as [Hg1 He1].
    specialize (Hdr Hm Hd).
    destruct (IH w1 e2 Hdr Hq H2) as (Hg2 & Hd2 & He2).
    repeat split; try congruence.
    rewrite in_app_iff. intros [Hin|Hin]; [|contradiction].
    revert H1' Hin. unfold WndProc. rewrite Hd.
    destruct (message m =? WM_LBUTTONDOWN); [intros [= <- <- <-] []|].
    destruct (message m =? WM_LBUTTONUP); [intros [= <- <- <-] []|].
    destruct (message m =? WM_MOUSEMOVE); [intros [= <- <- <-] []|].
    destruct (message m =? WM_PAINT).
    { destruct (drawShadedModel std_sort (globals w)); simpl; [|discriminate].
      intros [= <- <- <-] [|[]]. discriminate. }
    destruct (message m =? WM_DESTROY); intros [= <- <- <-] [|[]]; discriminate.
Qed.

End WindowFacts.

Lemma X4_mesh_kept_in_sync_witness :
  vertices (globals (fst drag_session_end)) = vertices (globals viewer0) /\
  faces (globals (fst drag_session_end)) = faces (globals viewer0) /\
  (in_sync (FA := b32) (globals viewer0) -> in_sync (FA := b32) (globals (fst drag_session_end))).
Proof.
  apply (X4_mesh_kept_in_sync (FA := b32) insertion_sort viewer0 (fst drag_session_end)
                              drag_session (snd drag_session_end)).
  vm_compute. reflexivity.
Defined.

Lemma X5_no_turn_without_button_witness :
  globals (fst idle_session_end) = globals viewer0 /\
  dragging (fst idle_session_end) = false /\
  ~ In InvalidateRect (snd idle_session_end).
Proof.
  apply (X5_no_turn_without_button (FA := b32) insertion_sort viewer0 (fst idle_session_end)
                                   idle_session (snd idle_session_end)).
  - reflexivity.
  - repeat constructor; discriminate.
  - vm_compute. reflexivity.
Defined.

(** ** More on the loader *)

Lemma until_newline_replace (s : string) :
  until_newline (replace_commas s) =
  (replace_commas (fst (until_newline s)), option_map replace_commas (snd (until_newline s))).
Proof.
  induction s as [|c s IH]; simpl; [reflexivity|].
  destruct (Ascii.eqb c ",") eqn:Ec.
  - apply Ascii.eqb_eq in Ec. subst c. simpl. rewrite IH.
    destruct (until_newline s) as [l r]. reflexivity.
  - destruct (Ascii.eqb c newline); [reflexivity|]. rewrite IH.
    destruct (until_newline s) as [l r]. simpl. rewrite Ec. reflexivity.
Qed.

Section Separators.

Context {R : Type}.
Variable extract : string -> R.

Lemma load_loop_spaced (fuel : nat) :
  forall (file : ifstream) (line line' : string) (i count : Z) (acc : list R),
    replace_commas line' = replace_commas line ->
    load_loop extract fuel (spaced file) line' i count acc
    = option_map (fun r => (spaced (fst r), snd r))
                 (load_loop extract fuel file line i count acc).
Proof.
  induction fuel as [|fuel IH]; intros file line line' i count acc Hl; [reflexivity|].
  simpl. destruct (i <? count); [|reflexivity].
  unfold getline. change (good (spaced file)) with (good file).
  destruct (good file).
  - unfold spaced at 1. cbn [buffer]. rewrite until_newline_replace.
    destruct (until_newline (buffer file)) as [l [s'|]]; cbn [fst snd option_map];
      rewrite ?replace_commas_empty; destruct (empty l) eqn:El.
    + apply (IH (mkStream s' false false)), replace_commas_idem.
    + rewrite replace_commas_idem. apply (IH (mkStream s' false false)). reflexivity.
    + apply (IH (mkStream EmptyString true true)), replace_commas_idem.
    + rewrite replace_commas_idem. apply (IH (mkStream EmptyString true false)). reflexivity.
  - assert (He : empty line' = empty line).
    { rewrite <- (replace_commas_empty line'), Hl. apply replace_commas_empty. }
    cbn [spaced buffer eofbit failbit]. rewrite He, Hl. destruct (empty line).
    + apply (IH (mkStream (buffer file) (eofbit file) true)). exact Hl.
    + apply (IH (mkStream (buffer file) (eofbit file) true)). reflexivity.
Qed.

(** X6.  Commas and spaces are the same separator to the loader: a file
    and the same file with every comma turned into a space load the
    same records, and the loader stops at the same place in both (or
    returns for neither). *)
Theorem X6_commas_are_spaces (fuel : nat) (content : string) (count : Z) :
  load_records extract fuel (mkStream (replace_commas content) false false) count
  = match load_records extract fuel (mkStream content false false) count with
    | Some (file, records) => Some (spaced file, records)
    | None => None
    end.
Proof.
  unfold load_records.
  change (mkStream (replace_commas content) false false)
    with (spaced (mkStream content false false)).
  rewrite (load_loop_spaced fuel (mkStream content false false) EmptyString EmptyString
                            0 count [] eq_refl).
  destruct (load_loop extract fuel _ _ _ _ _) as [[file records]|]; reflexivity.
Qed.

End Separators.

Section EndOfInput.

Context {R : Type}.
Variable extract : string -> R.


(** X8.  A last line without newline is a record like the others; but
    when the declared count asks for more records than the file holds,
    that last line is read again and again until the count is met. *)
Theorem X8_last_line_repeated (ls : list string) (last : string) (count : Z) (fuel : nat) :
  forallb (fun l => negb (has_newline l)) ls = true ->
  has_newline last = false ->
  empty last = false ->
  Z.of_nat (length (List.filter nonblank ls)) < count ->
  (length ls + Z.to_nat (count - Z.of_nat (length (List.filter nonblank ls))) < fuel)%nat ->
  let missing := Z.to_nat (count - Z.of_nat (length (List.filter nonblank ls))) in
  load_records extract fuel (mkStream (text ls ++ last) false false) count
  = Some (mkStream EmptyString true (negb (missing =? 1)%nat),
          records_of extract ls ++ replicate missing (extract (replace_commas last))).
Proof.
  intros Hnl Hlast Hne Hlt Hfuel missing. unfold load_records.
  set (k := length (List.filter nonblank ls)) in *.
  replace fuel with (length ls + (fuel - length ls))%nat by lia.
  rewrite (load_loop_prefix extract count last ls _ EmptyString 0 [] Hnl) by (fold k; lia).
  fold k. replace (0 + Z.of_nat k) with (Z.of_nat k) by lia. rewrite app_nil_l.
  destruct (fuel - length ls)%nat as [|fuel'] eqn:Hf; [lia|].
  cbn [load_loop]. destruct (Z.ltb_spec (Z.of_nat k) count); [|lia].
  unfold getline. cbn [good eofbit failbit negb andb buffer].
  rewrite (until_newline_last last Hlast), Hne.
  destruct missing as [|n] eqn:Hm; [unfold missing in Hm; lia|].
  rewrite (load_loop_stale extract count n fuel' (mkStream EmptyString true false)
                           (replace_commas last));
    [| reflexivity | rewrite replace_commas_empty; exact Hne
     | unfold missing in Hm; lia | unfold missing in Hm; lia ].
  rewrite replace_commas_idem, <- app_assoc. destruct n; reflexivity.
Qed.

End EndOfInput.

(** ** The entry point *)


Section EntryPoint.

Context {F : Type} {FA : FloatArith F}.
Variable std_sort : forall A : Type, (A -> A -> bool) -> list A -> list A.
Variable extract_header : string -> Z * Z.
Variable extract_vertex : string -> Vertex F.
Variable extract_face : string -> Face.

(** X9.  Whenever the program ends: it exits with code 1, after one
    message box and nothing else, exactly when [object.txt] could not
    be opened; otherwise it exits with code 0, no message box of any
    text is opened, neither by [WinMain] nor by [WndProc], and the
    geometry it holds at the end is the transform of the mesh under the
    final angles. *)
Theorem X9_WinMain_outcome (fuel : nat) (object_txt : option string) (window : bool)
        (queue : list MSG) (fin : @Finished F) :
  WinMain std_sort extract_header extract_vertex extract_face fuel object_txt window queue
  = Some (Ok fin) ->
  (exit_code fin = 1 <-> object_txt = None) /\
  (exit_code fin = 0 <-> object_txt <> None) /\
  (forall msg title : string,
      In (MessageBoxA msg title) (effects fin)
      <-> object_txt = None /\ msg = "Could not open object.txt"%string
          /\ title = "Error"%string) /\
  (final fin = None <-> object_txt = None) /\
  (object_txt = None -> effects fin = [MessageBoxA "Could not open object.txt" "Error"]) /\
  (forall w, final fin = Some w -> in_sync (globals w)).
Proof.
  unfold WinMain. destruct object_txt as [content|].
  - destruct (getline _ _) as [file header].
    destruct (extract_header (replace_commas header)) as [vertexCount faceCount].
    destruct (loadVertices _ _ _ _) as [[file1 vs]|]; [|discriminate].
    destruct (loadFaces _ _ _ _) as [[file2 fs]|]; [|discriminate].
    set (w0 := mkViewer _ false _).
    assert (Hs0 : in_sync (globals w0)) by apply in_sync_applyTransform.
    destruct window.
    + destruct (pump std_sort w0 queue) as [[w' effs]|] eqn:Hp; simpl; [|discriminate].
      intros [= <-]. simpl.
      assert (Hbox : forall msg title, ~ In (MessageBoxA msg title) effs)
        by (intros msg title; exact (pump_no_box std_sort _ _ _ _ msg title Hp)).
      apply pump_keeps in Hp as (_ & _ & Hs).
      split; [split; discriminate|].
      split; [split; [intros _; discriminate|reflexivity]|].
      split.
      { intros msg title. split.
        - intros [H|[H|H]]; [discriminate|discriminate|].
          destruct (Hbox msg title H).
        - intros [H _]. discriminate. }
      split; [split; discriminate|]. split; [discriminate|].
      intros w [= <-]. auto.
    + intros [= <-]. simpl.
      split; [split; discriminate|].
      split; [split; [intros _; discriminate|reflexivity]|].
      split; [intros msg title; split; [intros []|intros [H _]; discriminate]|].
      split; [split; discriminate|]. split; [discriminate|].
      intros w [= <-]. exact Hs0.
  - intros [= <-]. simpl.
    split; [split; reflexivity|].
    split; [split; [discriminate|intros H; contradiction]|].
    split.
    { intros msg title. split.
      - intros [[= <- <-]|[]]. auto.
      - intros (_ & -> & ->). left. reflexivity. }
    split; [split; reflexivity|]. split; [reflexivity|].
    intros w [=].
Qed.


End EntryPoint.

(** ** More on [drawShadedModel] *)

Section DrawShape.

Context {F : Type} {FA : FloatArith F}.
Variable std_sort : forall A : Type, (A -> A -> bool) -> list A -> list A.

Lemma no_flag_no_dot (tr : list (Vertex F)) (idx : list nat) (cmds : list DrawCmd) :
  (forall i, In i idx -> (i < length tr)%nat) ->
  foldM (draw_dot tr (replicate (length tr) false)) idx cmds = Ok cmds.
Proof.
  revert cmds. induction idx as [|i idx IH]; intros cmds Hin; [reflexivity|].
  simpl. unfold draw_dot at 1. rewrite at_index_nat.
  rewrite lookup_replicate_2 by (apply Hin; left; reflexivity). simpl.
  apply IH. intros j Hj. apply Hin. right. exact Hj.
Qed.

(** X11.  A mesh without faces draws nothing: no triangle and, since no
    vertex is flagged, no dot either, whatever the coordinates of its
    vertices; no vertex is even projected. *)
Theorem X11_no_faces_no_output (g : Globals F) :
  sort_contract std_sort ->
  faces g = [] ->
  drawShadedModel std_sort g = Ok [].
Proof.
  intros Hsort Hf. unfold drawShadedModel. rewrite Hf. simpl.
  destruct (Hsort _ (@by_avgZ F FA) [] eq_refl) as [Hperm _].
  apply Permutation_nil in Hperm. rewrite Hperm. simpl.
  apply no_flag_no_dot. intros i Hi. apply in_seq in Hi. lia.
Qed.

Lemma chunks_shape (tr : list (Vertex F)) (es : list (IndexedFace F))
      (chunks : list (list DrawCmd)) :
  Forall2 (fun e cs => painted tr (face e) cs) es chunks ->
  exists tris,
    concat chunks = flat_map outlined tris /\
    Forall2 (fun e t =>
               let '(p1, p2, p3, blue) := t in
               exists a b c,
                 corners tr (face e) = Ok (a, b, c) /\
                 project a = Some p1 /\ project b = Some p2 /\ project c = Some p3 /\
                 blue_channel a b c = Some blue)
            (List.filter (fun e => negb (skipped tr (face e))) es) tris.
Proof.
  induction 1 as [|e cs es chunks Hp _ (tris & Hc & Hl)]; simpl.
  - exists []. split; [reflexivity|constructor].
  - destruct Hp as (a & b & c & Hcor & Hcs). unfold skipped at 1. rewrite Hcor.
    destruct (degenerate a b c); simpl.
    + subst cs. exists tris. auto.
    + destruct Hcs as (blue & p1 & p2 & p3 & Hb & H1 & H2 & H3 & ->).
      exists ((p1, p2, p3, blue) :: tris). simpl. rewrite Hc.
      split; [reflexivity|]. constructor; [|exact Hl].
      exists a, b, c. destruct (normal_of_loop a b c) as (_ & _ & _ & Hint).
      split; [exact Hcor|]. do 3 (split; [assumption|]).
      unfold blue_channel. rewrite <- Hint. exact Hb.
Qed.

(** X12.  The command stream of a successful run is a sequence of
    blocks, one per face that is not skipped, each a [Polygon] through
    the projections of the three corners of its face, filled in the
    blue of that face, followed at once by its closed outline in black
    through the same three points ([MoveToEx p1], [LineTo p2],
    [LineTo p3], [LineTo p1]); the dots come after all the triangles,
    in the order of the vertex positions, at most one per position and
    each centred on the projection of its vertex. *)
Theorem X12_stream_shape (g : Globals F) (cmds : list DrawCmd) :
  sort_contract std_sort ->
  strict_weak_onb by_avgZ (indexed (transformed g) (faces g)) = true ->
  drawShadedModel std_sort g = Ok cmds ->
  exists (drawn : list Face) (tris : list (POINT * POINT * POINT * Z))
         (keep : nat -> bool) (ps : list POINT),
    cmds = flat_map (fun t => let '(p1, p2, p3, blue) := t in
                              [Polygon p1 p2 p3 (RGB 0 0 blue); MoveToEx p1;
                               LineTo p2 (RGB 0 0 0); LineTo p3 (RGB 0 0 0);
                               LineTo p1 (RGB 0 0 0)]) tris
           ++ map (fun p => Ellipse (pt_x p - 3) (pt_y p - 3) (pt_x p + 3) (pt_y p + 3)
                                    (RGB 0 0 255)) ps /\
    Permutation drawn (List.filter (fun f => negb (skipped (transformed g) f)) (faces g)) /\
    Forall2 (fun f t =>
               let '(p1, p2, p3, blue) := t in
               exists a b c,
                 corners (transformed g) f = Ok (a, b, c) /\
                 project a = Some p1 /\ project b = Some p2 /\ project c = Some p3 /\
                 blue_channel a b c = Some blue) drawn tris /\
    Forall2 (projects_to (transformed g))
            (List.filter keep (seq 0 (length (transformed g)))) ps /\
    length tris
    = length (List.filter (fun f => negb (skipped (transformed g) f)) (faces g)) /\
    (length ps <= length (transformed g))%nat /\
    length cmds = (5 * length tris + length ps)%nat.
Proof.
  intros Hsort Hswo Hrun.
  destruct (draw_anatomy std_sort Hsort g cmds Hswo Hrun)
    as (Hv & Hperm & _ & chunks & vis & ps & -> & Hp & _ & _ & Hps).
  destruct (chunks_shape _ _ _ Hp) as (tris & Hc & Hl).
  set (tr := transformed g) in *.
  set (sorted := std_sort _ by_avgZ (indexed tr (faces g))) in *.
  assert (Hdrawn : Permutation
                     (map face (List.filter (fun e => negb (skipped tr (face e))) sorted))
                     (List.filter (fun f => negb (skipped tr f)) (faces g))).
  { rewrite <- (list_filter_map face (fun f => negb (skipped tr f))).
    apply Permutation_list_filter.
    transitivity (map face (indexed tr (faces g))).
    - apply Permutation_map, Permutation_sym, Hperm.
    - rewrite (proj2 (first_loop_valid tr (faces g) [] Hv)). reflexivity. }
  exists (map face (List.filter (fun e => negb (skipped tr (face e))) sorted)),
         tris, (shown tr vis), ps.
  split; [rewrite Hc; reflexivity|]. split; [exact Hdrawn|].
  split; [apply Forall2_fmap_l; exact Hl|]. split; [exact Hps|].
  split; [|split].
  - apply Forall2_length in Hl. rewrite <- Hl, <- (length_map face).
    apply Permutation_length, Hdrawn.
  - apply Forall2_length in Hps. rewrite <- Hps.
    etransitivity; [apply List.filter_length_le|]. rewrite length_seq. reflexivity.
  - rewrite length_app, length_map, Hc. f_equal.
    clear. induction tris as [|[[[p1 p2] p3] blue] tris IH]; simpl; [reflexivity|].
    rewrite IH. lia.
Qed.

End DrawShape.

(** ** Winding of a face, in binary32 *)

Module Winding.

Import B32.

Lemma opp_round_aux (s : bool) (mz ez : Z) (l : location) :
  SFopp (binary_round_aux prec emax s mz ez l) = binary_round_aux prec emax (negb s) mz ez l.
Proof.
  unfold binary_round_aux.
  destruct (shr_fexp prec emax mz ez l) as [mrs e'].
  destruct (shr_fexp prec emax _ e' loc_Exact) as [mrs' e''].
  destruct (shr_m mrs'); [reflexivity| |reflexivity].
  destruct (e'' <=? emax - prec); reflexivity.
Qed.

Lemma opp_round (s : bool) (mz : positive) (ez : Z) :
  SFopp (binary_round prec emax s mz ez) = binary_round prec emax (negb s) mz ez.
Proof.
  unfold binary_round. destruct (shl_align mz ez _) as [mz' ez']. apply opp_round_aux.
Qed.

Lemma mul_comm (p q : spec_float) : mul p q = mul q p.
Proof.
  destruct p as [s|s| |s mp ep], q as [s'|s'| |s' mq eq]; simpl; try reflexivity;
    try (rewrite (xorb_comm s s'); reflexivity).
  unfold mul. simpl. rewrite (xorb_comm s s'), (Pos.mul_comm mp mq), (Z.add_comm ep eq).
  reflexivity.
Qed.

Lemma flipped_abs (p q : spec_float) : flipped p q -> SFabs q = SFabs p.
Proof.
  intros [->|(s & s' & -> & ->)]; [|reflexivity]. destruct p; reflexivity.
Qed.

Lemma sub_swap (p q : spec_float) : flipped (sub p q) (sub q p).
Proof.
  destruct p as [s|s| |s mp ep], q as [s'|s'| |s' mq eq];
    try (left; reflexivity);
    try (destruct s, s'; first [left; reflexivity | right; eexists _, _; split; reflexivity]).
  unfold sub, SFsub. rewrite (Z.min_comm eq ep).
  set (ez := Z.min ep eq).
  set (A := cond_Zopp s (Z.pos (shl_align mp ep ez).1)).
  set (B := cond_Zopp s' (Z.pos (shl_align mq eq ez).1)).
  replace (B - A) with (- (A - B)) by lia.
  destruct (A - B) as [|d|d]; simpl.
  - right. exists false, false. auto.
  - left. rewrite opp_round. reflexivity.
  - left. rewrite opp_round. reflexivity.
Qed.

Lemma square_abs (p q : spec_float) : SFabs q = SFabs p -> mul q q = mul p p.
Proof.
  destruct p as [s|s| |s mp ep], q as [s'|s'| |s' mq eq]; simpl; try discriminate;
    try reflexivity; intros H.
  - destruct s, s'; reflexivity.
  - destruct s, s'; reflexivity.
  - injection H as -> ->. unfold mul. simpl. destruct s, s'; reflexivity.
Qed.

Lemma div_opp (p len : spec_float) : div (SFopp p) len = SFopp (div p len).
Proof.
  destruct p as [s|s| |s mp ep], len as [s'|s'| |s' ml el]; simpl; try reflexivity;
    try (destruct s, s'; reflexivity).
  unfold div. simpl.
  destruct (SFdiv_core_binary prec emax (Z.pos mp) ep (Z.pos ml) el) as [[mz ez] lz].
  rewrite opp_round_aux. destruct s, s'; reflexivity.
Qed.

Lemma div_flipped (p q len : spec_float) :
  flipped p q -> flipped (div p len) (div q len).
Proof.
  intros [->|(s & s' & -> & ->)]; [left; apply div_opp|].
  destruct len as [sl|sl| |sl ml el]; simpl;
    first [ left; reflexivity | right; eexists _, _; split; reflexivity ].
Qed.

Lemma flipped_not_both_positive (p q : spec_float) :
  flipped p q -> SFltb (of_Z 0) p = true -> SFltb (of_Z 0) q = false.
Proof.
  intros [->|(s & s' & -> & ->)]; [|discriminate].
  destruct p as [s|s| |s mp ep]; try destruct s; try reflexivity; discriminate.
Qed.

End Winding.

Section WindingFacts.

Variable m : libm.
Local Instance b32w : FloatArith spec_float := binary32_arith m.

Lemma cross_swap (a b c : Vertex spec_float) :
  let '(nx, ny, nz) := cross a b c in
  let '(nx', ny', nz') := cross a c b in
  flipped nx nx' /\ flipped ny ny' /\ flipped nz nz'.
Proof.
  unfold cross. simpl. fold B32.sub B32.mul.
  set (ux := B32.sub (x b) (x a)). set (uy := B32.sub (y b) (y a)).
  set (uz := B32.sub (z b) (z a)). set (vx := B32.sub (x c) (x a)).
  set (vy := B32.sub (y c) (y a)). set (vz := B32.sub (z c) (z a)).
  rewrite (Winding.mul_comm vy uz), (Winding.mul_comm vz uy),
    (Winding.mul_comm vz ux), (Winding.mul_comm vx uz),
    (Winding.mul_comm vx uy), (Winding.mul_comm vy ux).
  repeat split; apply Winding.sub_swap.
Qed.

(** X13.  Reversing the winding of a face (swapping two of its corners)
    changes neither the length of its normal, nor whether it is
    skipped, nor its intensity and blue value; but a face and its
    mirror image are never both front-facing.  Only the visibility
    marking depends on the winding. *)
Theorem X13_winding (a b c : Vertex spec_float) :
  norm3 (cross a c b) = norm3 (cross a b c) /\
  degenerate a c b = degenerate a b c /\
  intensity a c b = intensity a b c /\
  to_int (fadd (of_int 0x5F) (fmul (intensity a c b) (of_int (0xFF - 0x5F))))
  = to_int (fadd (of_int 0x5F) (fmul (intensity a b c) (of_int (0xFF - 0x5F)))) /\
  (front_facing a b c = true -> front_facing a c b = false).
Proof.
  pose proof (cross_swap a b c) as H.
  assert (Hn : norm3 (cross a c b) = norm3 (cross a b c)).
  { destruct (cross a b c) as [[nx ny] nz], (cross a c b) as [[nx' ny'] nz'].
    destruct H as (Hx & Hy & Hz). unfold norm3. simpl. fold B32.mul.
    rewrite (Winding.square_abs _ _ (Winding.flipped_abs _ _ Hx)),
      (Winding.square_abs _ _ (Winding.flipped_abs _ _ Hy)),
      (Winding.square_abs _ _ (Winding.flipped_abs _ _ Hz)). reflexivity. }
  assert (Hz : flipped (unit_nz a b c) (unit_nz a c b)).
  { unfold unit_nz. rewrite Hn.
    destruct (cross a b c) as [[nx ny] nz], (cross a c b) as [[nx' ny'] nz'].
    destruct H as (_ & _ & Hz). simpl. apply Winding.div_flipped, Hz. }
  assert (Hi : intensity a c b = intensity a b c).
  { unfold intensity. simpl. apply Winding.flipped_abs, Hz. }
  split; [exact Hn|]. split; [unfold degenerate; rewrite Hn; reflexivity|].
  split; [exact Hi|]. split; [rewrite Hi; reflexivity|].
  unfold front_facing. simpl. apply Winding.flipped_not_both_positive, Hz.
Qed.

End WindingFacts.

(** ** The further properties on the example meshes and files *)


Lemma X8_last_line_repeated_witness :
  load_records Extract.face 6
               (mkStream (String.append (text ["1 2 3"; ""]%string) "3 2 4") false false) 4
  = Some (mkStream EmptyString true true,
          [mkFace 1 2 3; mkFace 3 2 4; mkFace 3 2 4; mkFace 3 2 4]).
Proof.
  apply (X8_last_line_repeated Extract.face ["1 2 3"; ""]%string "3 2 4"%string 4 6).
  - reflexivity.
  - reflexivity.
  - reflexivity.
  - simpl. lia.
  - simpl. lia.
Defined.

Lemma X9_WinMain_outcome_witness :
  (exit_code triangle_run = 1 <-> Some triangle_txt = None) /\
  (exit_code triangle_run = 0 <-> Some triangle_txt <> None) /\
  (forall msg title : string,
      In (MessageBoxA msg title) (effects triangle_run)
      <-> Some triangle_txt = None /\ msg = "Could not open object.txt"%string
          /\ title = "Error"%string) /\
  (final triangle_run = None <-> Some triangle_txt = None) /\
  (Some triangle_txt = None
   -> effects triangle_run = [MessageBoxA "Could not open object.txt" "Error"]) /\
  (forall w, final triangle_run = Some w -> in_sync (FA := b32) (globals w)).
Proof.
  apply (X9_WinMain_outcome (FA := b32) insertion_sort Extract.header
                            (Extract.vertex (FA := b32)) Extract.face 8
                            (Some triangle_txt) true drag_session triangle_run).
  vm_compute. reflexivity.
Defined.


Lemma X11_no_faces_no_output_witness :
  drawShadedModel (FA := b32) insertion_sort
                  (mkGlobals (vertices unit_triangle) []
                             (transformed (applyTransform (FA := b32) unit_triangle))
                             (B32.of_Z 0) (B32.of_Z 0))
  = Ok [].
Proof.
  apply (X11_no_faces_no_output (FA := b32) insertion_sort _ insertion_sort_contract).
  reflexivity.
Defined.

Lemma X12_stream_shape_witness :
  exists (drawn : list Face) (tris : list (POINT * POINT * POINT * Z))
         (keep : nat -> bool) (ps : list POINT),
    tetra_cmds
    = flat_map (fun t => let '(p1, p2, p3, blue) := t in
                         [Polygon p1 p2 p3 (RGB 0 0 blue); MoveToEx p1;
                          LineTo p2 (RGB 0 0 0); LineTo p3 (RGB 0 0 0);
                          LineTo p1 (RGB 0 0 0)]) tris
      ++ map (fun p => Ellipse (pt_x p - 3) (pt_y p - 3) (pt_x p + 3) (pt_y p + 3)
                               (RGB 0 0 255)) ps /\
    Permutation drawn
                (List.filter (fun f => negb (skipped (FA := b32) (transformed tetra) f))
                             (faces tetra)) /\
    Forall2 (fun f t =>
               let '(p1, p2, p3, blue) := t in
               exists a b c,
                 corners (transformed tetra) f = Ok (a, b, c) /\
                 project (FA := b32) a = Some p1 /\ project (FA := b32) b = Some p2 /\
                 project (FA := b32) c = Some p3 /\
                 blue_channel (FA := b32) a b c = Some blue) drawn tris /\
    Forall2 (projects_to (FA := b32) (transformed tetra))
            (List.filter keep (seq 0 (length (transformed tetra)))) ps /\
    length tris
    = length (List.filter (fun f => negb (skipped (FA := b32) (transformed tetra) f))
                          (faces tetra)) /\
    (length ps <= length (transformed tetra))%nat /\
    length tetra_cmds = (5 * length tris + length ps)%nat.
Proof.
  apply (X12_stream_shape (FA := b32) insertion_sort tetra tetra_cmds
                          insertion_sort_contract).
  - vm_compute. reflexivity.
  - vm_compute. reflexivity.
Defined.
